(** * A shallow embedding of [sampler.py] (class [Sampler])

    The sampler advances [nruns] trajectories together.  numpy arrays are
    lists here: a one-dimensional array is a list, the two-dimensional
    arrays ([config], [propConfig], the random buffers) are lists of rows.
    Python integers are [Z]; positions inside an array are [nat].  Scores,
    temperatures and the uniform draws are real numbers: rounding, overflow
    and underflow of the 64-bit floats are not modelled.  What numpy does on
    a division by zero (no exception, an infinity or a NaN) is modelled by
    the type [npfloat] below.

    An index that is out of range raises IndexError in Python; here a read
    out of range gives a default and a write out of range does nothing.
    The statements below say where they need an index to be in range.

    Left out: the progress bar, the seeding of the generator and the
    construction of the toy oracle.  The debug records ([initRecs],
    [recordStats]), which are written and never read, and the last line of
    [converge] are modelled on their own: the call of [recordStats] in
    debug mode is not part of [updateConfigs], nor the report part of
    [converge]. *)

From Stdlib Require Import ZArith Reals Lra Lia.
From stdpp Require Import base decidable option list sorting.

Set Default Proof Using "Type".

(** ** Numbers *)

#[global] Instance R_inhabited : Inhabited R := populate 0%R.
#[global] Instance Rlt_decision (x y : R) : Decision (x < y)%R := Rlt_dec x y.
#[global] Instance Req_decision : EqDecision R := Req_dec_T.

(** The value of a numpy floating-point expression that contains a
    division: a real number, or one of the IEEE special values a division
    by zero produces. *)
Inductive npfloat : Type :=
  | Fin (r : R)
  | PInf
  | NInf
  | NaN.

(** [x / y] on numpy scalars and arrays: a zero divisor raises no
    exception (a RuntimeWarning is printed) and gives [inf], [-inf] or
    [nan] by the sign of the dividend. *)
Definition np_div (x y : R) : npfloat :=
  if decide (y = 0%R) then
    if decide (0 < x)%R then PInf
    else if decide (x < 0)%R then NInf
    else NaN
  else Fin (x / y).

(** [np.exp] *)
Definition np_exp (v : npfloat) : npfloat :=
  match v with
  | Fin r => Fin (exp r)
  | PInf => PInf
  | NInf => Fin 0
  | NaN => NaN
  end.

(** [np.minimum(1, v)]: NaN is propagated. *)
Definition np_minimum1 (v : npfloat) : npfloat :=
  match v with
  | Fin r => Fin (Rmin 1 r)
  | PInf => Fin 1
  | NInf => NInf
  | NaN => NaN
  end.

(** [a < v] for a real [a]; every comparison with NaN is false. *)
Definition np_lt_l (a : R) (v : npfloat) : bool :=
  match v with
  | Fin r => bool_decide (a < r)%R
  | PInf => true
  | NInf => false
  | NaN => false
  end.

(** [v < b] for a real [b]. *)
Definition np_lt_r (v : npfloat) (b : R) : bool :=
  match v with
  | Fin r => bool_decide (r < b)%R
  | PInf => false
  | NInf => true
  | NaN => false
  end.

(** ** Arrays *)

(** One padded sequence: a row of [self.config]. *)
Abbreviation row := (list Z).

(** [a[i][j]] with a default where Python would raise IndexError. *)
Definition get2 {A} (d : A) (a : list (list A)) (i j : nat) : A :=
  default d (a !! i ≫= (.!! j)).

(** [np.count_nonzero] *)
Definition count_nonzero (r : row) : Z :=
  Z.of_nat (length (filter (λ z, z ≠ 0%Z) r)).

(** [l[-k:]] *)
Definition lastn {A} (k : nat) (l : list A) : list A :=
  drop (length l - k) l.

(** [l[-1]], with a default where Python would raise IndexError. *)
Definition last_or {A} (d : A) (l : list A) : A := default d (last l).

(** ** The configuration object read by the sampler ([config_main]) *)

Record ConfigMain := {
  variable_length : bool;          (* dataset.variable_length *)
  min_length : Z;                  (* dataset.min_length *)
  max_length : Z;                  (* dataset.max_length *)
  dict_size : Z;                   (* dataset.dict_size *)
  sampling_time : nat;             (* mcmc.sampling_time *)
  post_annealing_time : nat        (* gflownet.post_annealing_time *)
}.

(** ** Random draws

    The global numpy generator is not modelled; every call site receives
    its result from outside.  A theorem that holds for all results holds
    for whatever the generator returns. *)

(** The draws of one call of [makeAConfig]: the result of
    [randint(min_length, max_length)] and, position by position, the
    symbols of [randint(1, dict_size + 1, size = ...)]. *)
Record ConfigDraw := {
  randChainLen : Z;
  randSymbol : nat → Z
}.

(** The five buffers filled by [resampleRandints], each [nruns] by
    [randintsResampleAt]. *)
Record RandBuf := {
  spinRandints : list (list Z);
  pickSpinRandint : list (list nat);
  alphaRandoms : list (list R);
  changeLengthRandints : list (list Z);
  seqExtensionRandints : list (list Z)
}.

(** ** makeAConfig *)

Definition makeAConfig (cm : ConfigMain) (d : ConfigDraw) : row :=
  if variable_length cm then
    let randConfig := map (randSymbol d) (seq 0 (Z.to_nat (randChainLen d))) in
    if decide (randChainLen d < max_length cm)%Z then
      randConfig ++ replicate (Z.to_nat (max_length cm - randChainLen d)) 0%Z
    else randConfig
  else
    map (randSymbol d) (seq 0 (Z.to_nat (max_length cm))).

(** ** propConfigs *)

Section Proposal.
Context (cm : ConfigMain) (buf : RandBuf).


(** The body of the loop of [propConfigs] for trajectory [i], on row [i]
    of the copy of [config].  A write past the end of the row is left
    out (numpy raises IndexError there). *)
Definition propRow (ind i : nat) (r : row) : row :=
  let r1 := <[get2 0%nat (pickSpinRandint buf) i ind := get2 0%Z (spinRandints buf) i ind]> r in
  if variable_length cm then
    if decide (get2 0%Z (changeLengthRandints buf) i ind = 0%Z) then r1
    else
      let nnz := count_nonzero r1 in
      if decide (get2 0%Z (changeLengthRandints buf) i ind = 1%Z) then
        if decide (nnz < max_length cm)%Z then
          <[Z.to_nat nnz := get2 0%Z (seqExtensionRandints buf) i ind]> r1
        else r1
      else if decide (nnz = (-1)%Z) then
        if decide (nnz > min_length cm)%Z then <[Z.to_nat (nnz - 1) := 0%Z]> r1
        else r1
      else r1
  else r1.

Definition propConfigs (nruns : nat) (config : list row) (ind : nat) : list row :=
  foldl (λ P i, alter (propRow ind i) i P) config (seq 0 nruns).
End Proposal.

(** ** The optimum tracker

    The lists of recorded samples hold numpy arrays by reference.
    [initOptima] appends [self.config[i]], which for the two-dimensional
    array [self.config] is a view: it shows whatever row [i] of [config]
    holds later, because [updateConfigs] and [resetConfig] write the row in
    place.  [saveOptima] appends [self.propConfig[ind]], a view of the
    proposal array of that iteration; [propConfigs] builds a new array in
    every iteration, so the row seen through that view no longer changes. *)
Inductive rowref : Type :=
  | RowOf (i : nat)      (* view of row [i] of [self.config] *)
  | Snap (r : row).      (* row of an array that is written no more *)

(** The sequence seen through a reference, given the present [config]. *)
Definition deref (config : list row) (e : rowref) : row :=
  match e with
  | RowOf i => config !!! i
  | Snap r => r
  end.

(** The attributes created by [initOptima]; they do not exist before its
    first call. *)
Record Tracker := {
  E0 : list R;
  absMin : R;
  optima : list (list R);
  enAtOptima : list (list R);
  varAtOptima : list (list R);
  optimalSamples : list (list rowref);
  optimalInds : list (list Z);
  recInds : list (list Z);
  newOptima : list (list rowref);
  newOptimaEn : list (list R);
  allOptimalConfigs : list rowref
}.

(** Python's [min] of a list, with 0 where Python would raise ValueError. *)
Definition list_min (l : list R) : R :=
  match l with
  | [] => 0%R
  | x :: l' => foldl Rmin x l'
  end.

(** A two-row array such as [scores]: row 0 belongs to the proposals, row 1
    to the current sequences. *)
Abbreviation tworows := (list R * list R)%type.

Definition initOptima (nruns : nat) (scores energy variance : tworows) : Tracker :=
  {| E0 := scores.2;
     absMin := list_min scores.2;
     optima := (λ i, [] ++ [scores.2 !!! i]) <$> seq 0 nruns;
     enAtOptima := (λ i, [] ++ [energy.2 !!! i]) <$> seq 0 nruns;
     varAtOptima := (λ i, [] ++ [variance.2 !!! i]) <$> seq 0 nruns;
     optimalSamples := (λ i, [] ++ [RowOf i]) <$> seq 0 nruns;
     optimalInds := (λ i, [] ++ [0%Z]) <$> seq 0 nruns;
     recInds := (λ i, []) <$> seq 0 nruns;
     newOptima := (λ i, [] ++ [RowOf i]) <$> seq 0 nruns;
     newOptimaEn := (λ i, [] ++ [energy.2 !!! i]) <$> seq 0 nruns;
     allOptimalConfigs := [] |}.

(** [np.sum(p == e)] for two rows: the number of positions that agree. *)
Definition count_equal (p e : row) : nat :=
  length (filter (λ b : bool, b = true) (zip_with (λ a b, bool_decide (a = b)) p e)).

Definition recordMargin : R := (2 / 10)%R.

Section SaveOptima.
Context (config : list row) (propConfig : list row).
Context (scores energy variance : tworows) (iter : Z).

(** [saveOptima]; [config] is read only to look through the views held in
    the pool. *)
Definition saveOptima (ind : nat) (newBest : bool) (t : Tracker) : Tracker :=
  let pool :=
    if decide (length (allOptimalConfigs t) = 0%nat)
    then allOptimalConfigs t ++ concat (optimalSamples t)
    else allOptimalConfigs t in
  let p := propConfig !!! ind in
  let equals := map (λ e, count_equal p (deref config e)) pool in
  let t1 :=
    if negb (existsb (λ c, bool_decide (c = length p)) equals) || newBest then
      {| E0 := E0 t; absMin := absMin t;
         optima := alter (λ l, l ++ [scores.1 !!! ind]) ind (optima t);
         enAtOptima := alter (λ l, l ++ [energy.1 !!! ind]) ind (enAtOptima t);
         varAtOptima := alter (λ l, l ++ [variance.1 !!! ind]) ind (varAtOptima t);
         optimalSamples := alter (λ l, l ++ [Snap p]) ind (optimalSamples t);
         optimalInds := optimalInds t; recInds := recInds t;
         newOptima := newOptima t; newOptimaEn := newOptimaEn t;
         allOptimalConfigs := pool ++ [Snap p] |}
    else
      {| E0 := E0 t; absMin := absMin t; optima := optima t;
         enAtOptima := enAtOptima t; varAtOptima := varAtOptima t;
         optimalSamples := optimalSamples t;
         optimalInds := optimalInds t; recInds := recInds t;
         newOptima := newOptima t; newOptimaEn := newOptimaEn t;
         allOptimalConfigs := pool |} in
  if newBest then
    let e0 := <[ind := scores.1 !!! ind]> (E0 t1) in
    {| E0 := e0;
       absMin := if decide (e0 !!! ind < absMin t1)%R then e0 !!! ind else absMin t1;
       optima := optima t1; enAtOptima := enAtOptima t1; varAtOptima := varAtOptima t1;
       optimalSamples := optimalSamples t1;
       optimalInds := alter (λ l, l ++ [iter]) ind (optimalInds t1);
       recInds := recInds t1;
       newOptima := alter (λ l, l ++ [Snap p]) ind (newOptima t1);
       newOptimaEn := alter (λ l, l ++ [energy.1 !!! ind]) ind (newOptimaEn t1);
       allOptimalConfigs := allOptimalConfigs t1 |}
  else t1.
End SaveOptima.

Arguments saveOptima : simpl never.

(** [self.recInds[i].append(self.iter)] *)
Definition recordAcceptance (iter : Z) (i : nat) (t : Tracker) : Tracker :=
  {| E0 := E0 t; absMin := absMin t; optima := optima t;
     enAtOptima := enAtOptima t; varAtOptima := varAtOptima t;
     optimalSamples := optimalSamples t; optimalInds := optimalInds t;
     recInds := alter (λ l, l ++ [iter]) i (recInds t);
     newOptima := newOptima t; newOptimaEn := newOptimaEn t;
     allOptimalConfigs := allOptimalConfigs t |}.

(** The test of line 286 after [newBest] was found false: is the proposal
    within the record margin of the trajectory's best score? *)
Definition nearOldBest (e0 score : R) : bool :=
  np_lt_r (np_div (e0 - score) e0) recordMargin.

Section UpdateConfigs.
Context (alphaRandoms : list (list R)) (ind : nat).
Context (acceptanceRatio : list npfloat) (propConfig : list row).
Context (scores energy variance : tworows) (iter : Z).

(** The body of the loop of [updateConfigs] for trajectory [i], on the two
    attributes the loop writes, [config] and the tracker. *)
Definition acceptOne (i : nat) (st : list row * Tracker) : list row * Tracker :=
  let '(config, t) := st in
  if np_lt_l (get2 0%R alphaRandoms i ind) (default NaN (acceptanceRatio !! i)) then
    let config' := <[i := propConfig !!! i]> config in
    let t' := recordAcceptance iter i t in
    let newBest := bool_decide (scores.1 !!! i < E0 t' !!! i)%R in
    if (if newBest then true else nearOldBest (E0 t' !!! i) (scores.1 !!! i)) then
      (config', saveOptima config' propConfig scores energy variance iter i newBest t')
    else (config', t')
  else st.

Definition updateConfigs (nruns : nat) (st : list row * Tracker) : list row * Tracker :=
  foldl (λ st i, acceptOne i st) st (seq 0 nruns).
End UpdateConfigs.

(** ** Scores and the STUN transform *)

(** The collaborators called by [getScores]: the toy oracle
    ([self.oracle.score]) and the model passed to [converge].
    [learned_DQN] is the test
    [query_mode == 'learned' and 'DQN' in str(model.__class__)]. *)
Record Model := {
  oracle_score : list row → list R;
  learned_DQN : bool;
  evaluateQ : list row → list R;
  evaluate : list row → list R * list R
}.

(** [w * a - v * b], element by element. *)
Definition weighted (w v : R) (a b : list R) : list R :=
  zip_with (λ x y, w * x - v * y)%R a b.

(** [getScores]: (score, energy, variance), each with row 0 for
    [propConfig] and row 1 for [config]. *)
Definition getScores (scoreFunction : R * R) (model : Model) (useOracle : bool)
    (propConfig config : list row) : tworows * tworows * tworows :=
  if useOracle then
    let energy := (oracle_score model propConfig, oracle_score model config) in
    let variance := ((λ _, 0%R) <$> energy.1, (λ _, 0%R) <$> energy.2) in
    let score := (weighted scoreFunction.1 scoreFunction.2 energy.1 variance.1,
                  weighted scoreFunction.1 scoreFunction.2 energy.2 variance.2) in
    (score, energy, variance)
  else if learned_DQN model then
    let score := (evaluateQ model config, evaluateQ model propConfig) in
    let score := (Ropp <$> score.2, Ropp <$> score.1) in
    let energy := ((λ _, 0%R) <$> score.1, (λ _, 0%R) <$> score.2) in
    let variance := ((λ _, 0%R) <$> score.1, (λ _, 0%R) <$> score.2) in
    (score, energy, variance)
  else
    let r1 := evaluate model config in
    let r2 := evaluate model propConfig in
    let energy := (r2.1, r1.1) in
    let variance := (r2.2, r1.2) in
    let score := (weighted scoreFunction.1 scoreFunction.2 energy.1 (sqrt <$> variance.1),
                  weighted scoreFunction.1 scoreFunction.2 energy.2 (sqrt <$> variance.2)) in
    (score, energy, variance).

(** [computeSTUN], on one row of [scores]; [gammas] is broadcast along the
    rows. *)
Definition computeSTUN (gammas : list R) (absMin : R) (scores : list R) : list R :=
  zip_with (λ g s, 1 - exp (- g * (s - absMin)))%R gammas scores.

(** [getDE]; [F] is [None] for the placeholder [[0, 0]] of the raw mode. *)
Definition getDE (STUN : Z) (gammas : list R) (absMin : R) (scores : tworows)
    : option tworows * list R :=
  if decide (STUN = 1%Z) then
    let F := (computeSTUN gammas absMin scores.1, computeSTUN gammas absMin scores.2) in
    (Some F, zip_with Rminus F.1 F.2)
  else
    (None, zip_with Rminus scores.1 scores.2).

(** [np.minimum(1, np.exp(-self.DE / self.temperature))] *)
Definition acceptanceRatios (DE temperature : list R) : list npfloat :=
  zip_with (λ de T, np_minimum1 (np_exp (np_div (- de) T))) DE temperature.

(** ** The sampler object *)

Record Sampler := {
  STUN : Z;                          (* config_main.STUN *)
  nruns : nat;
  temp0 : R;
  temperature : list R;
  gammas : list R;
  scoreFunction : R * R;
  config : list row;
  buf : RandBuf;                     (* the five random buffers *)
  iter : Z;
  ind : nat;
  propConfig : list row;
  scores : tworows;
  energy : tworows;
  variance : tworows;
  F : option tworows;
  DE : list R;
  acceptanceRatio : list npfloat;
  tracker : option Tracker;          (* None until initOptima has run *)
  resetInd : list Z;
  acceptanceRate : list R
}.

Definition deltaIter : Z := 10.
Definition randintsResampleAt : Z := 10000.

Definition set_iter (it : Z) (s : Sampler) : Sampler :=
  {| STUN := STUN s; nruns := nruns s; temp0 := temp0 s; temperature := temperature s;
     gammas := gammas s; scoreFunction := scoreFunction s; config := config s;
     buf := buf s; iter := it; ind := ind s; propConfig := propConfig s;
     scores := scores s; energy := energy s; variance := variance s; F := F s;
     DE := DE s; acceptanceRatio := acceptanceRatio s; tracker := tracker s;
     resetInd := resetInd s; acceptanceRate := acceptanceRate s |}.

Definition set_temperature (T : list R) (s : Sampler) : Sampler :=
  {| STUN := STUN s; nruns := nruns s; temp0 := temp0 s; temperature := T;
     gammas := gammas s; scoreFunction := scoreFunction s; config := config s;
     buf := buf s; iter := iter s; ind := ind s; propConfig := propConfig s;
     scores := scores s; energy := energy s; variance := variance s; F := F s;
     DE := DE s; acceptanceRatio := acceptanceRatio s; tracker := tracker s;
     resetInd := resetInd s; acceptanceRate := acceptanceRate s |}.

Definition set_config (c : list row) (s : Sampler) : Sampler :=
  {| STUN := STUN s; nruns := nruns s; temp0 := temp0 s; temperature := temperature s;
     gammas := gammas s; scoreFunction := scoreFunction s; config := c;
     buf := buf s; iter := iter s; ind := ind s; propConfig := propConfig s;
     scores := scores s; energy := energy s; variance := variance s; F := F s;
     DE := DE s; acceptanceRatio := acceptanceRatio s; tracker := tracker s;
     resetInd := resetInd s; acceptanceRate := acceptanceRate s |}.

Definition set_resetInd (r : list Z) (s : Sampler) : Sampler :=
  {| STUN := STUN s; nruns := nruns s; temp0 := temp0 s; temperature := temperature s;
     gammas := gammas s; scoreFunction := scoreFunction s; config := config s;
     buf := buf s; iter := iter s; ind := ind s; propConfig := propConfig s;
     scores := scores s; energy := energy s; variance := variance s; F := F s;
     DE := DE s; acceptanceRatio := acceptanceRatio s; tracker := tracker s;
     resetInd := r; acceptanceRate := acceptanceRate s |}.

Definition set_acceptanceRate (a : list R) (s : Sampler) : Sampler :=
  {| STUN := STUN s; nruns := nruns s; temp0 := temp0 s; temperature := temperature s;
     gammas := gammas s; scoreFunction := scoreFunction s; config := config s;
     buf := buf s; iter := iter s; ind := ind s; propConfig := propConfig s;
     scores := scores s; energy := energy s; variance := variance s; F := F s;
     DE := DE s; acceptanceRatio := acceptanceRatio s; tracker := tracker s;
     resetInd := resetInd s; acceptanceRate := a |}.

(** [astype('uint8')], [astype('uint32')] and [astype('int8')] of an
    integer: the value wraps around. *)
Definition as_uint8 (z : Z) : Z := z mod 256.
Definition as_uint32 (k : nat) : nat := Z.to_nat (Z.of_nat k mod 4294967296).
Definition as_int8 (z : Z) : Z := (z + 128) mod 256 - 128.

(** The arrays the generator returns, as [resampleRandints] stores them:
    the symbols as uint8, the positions as uint32, the directions as
    int8; [astype(float)] leaves the uniform numbers as they are. *)
Definition stored (b : RandBuf) : RandBuf :=
  {| spinRandints := fmap (M := list) as_uint8 <$> spinRandints b;
     pickSpinRandint := fmap (M := list) as_uint32 <$> pickSpinRandint b;
     alphaRandoms := alphaRandoms b;
     changeLengthRandints := fmap (M := list) as_int8 <$> changeLengthRandints b;
     seqExtensionRandints := fmap (M := list) as_uint8 <$> seqExtensionRandints b |}.

(** [resampleRandints], given the arrays the generator returns. *)
Definition resampleRandints (b : RandBuf) (s : Sampler) : Sampler :=
  {| STUN := STUN s; nruns := nruns s; temp0 := temp0 s; temperature := temperature s;
     gammas := gammas s; scoreFunction := scoreFunction s; config := config s;
     buf := stored b; iter := iter s; ind := ind s; propConfig := propConfig s;
     scores := scores s; energy := energy s; variance := variance s; F := F s;
     DE := DE s; acceptanceRatio := acceptanceRatio s; tracker := tracker s;
     resetInd := resetInd s; acceptanceRate := acceptanceRate s |}.

Definition initConvergenceStats (s : Sampler) : Sampler :=
  set_acceptanceRate (replicate (nruns s) 0%R)
    (set_resetInd ((λ _, 0%Z) <$> seq 0 (nruns s)) s).

(** [getInitConfig]: one call of [makeAConfig] for each trajectory. *)
Definition getInitConfig (cm : ConfigMain) (nruns : nat) (draw : nat → ConfigDraw)
    : list row :=
  (λ i, makeAConfig cm (draw i)) <$> seq 0 nruns.

(** [resetConfig]: [self.config[ind, :] = self.makeAConfig()] writes row
    [ind] in place. *)
Definition resetConfig (cm : ConfigMain) (d : ConfigDraw) (i : nat) (s : Sampler)
    : Sampler :=
  set_config (<[i := makeAConfig cm d]> (config s)) s.

(** [config_main.target_acceptance_rate], set by [__init__]. *)
Definition target_acceptance_rate : R := (234 / 1000)%R.

(** Everything the numpy generator returns during a run, by call site:
    the draws of [getInitConfig], the buffers of the first
    [resampleRandints] of a run and of the one made in iteration [it], and
    in [updateAnnealing] at iteration [it] for trajectory [i] the uniform
    number and the draws of the re-randomization. *)
Record Rng := {
  initDraw : nat → ConfigDraw;
  buf0 : RandBuf;
  bufAt : Z → RandBuf;
  annealU : Z → nat → R;
  resetDraw : Z → nat → ConfigDraw
}.

(** What a reference shows once [self.config] is bound to another array:
    a view keeps the array it was taken from, which is written no more,
    so it shows for ever the row it showed at that moment. *)
Definition rebound (config : list row) (e : rowref) : rowref := Snap (deref config e).

(** The tracker after [self.config] was bound to another array. *)
Definition rebindConfig (config : list row) (t : Tracker) : Tracker :=
  {| E0 := E0 t; absMin := absMin t; optima := optima t;
     enAtOptima := enAtOptima t; varAtOptima := varAtOptima t;
     optimalSamples := fmap (M := list) (rebound config) <$> optimalSamples t;
     optimalInds := optimalInds t; recInds := recInds t;
     newOptima := fmap (M := list) (rebound config) <$> newOptima t;
     newOptimaEn := newOptimaEn t;
     allOptimalConfigs := rebound config <$> allOptimalConfigs t |}.

Section Run.
Context (cm : ConfigMain) (model : Model) (useOracle : bool) (rng : Rng).

(** The values [iterate] computes, in the order of the source: the index
    into the random buffers, the proposal, the scores, the tracker
    ([initOptima] runs if [self.E0] does not exist yet), [F] and [DE], the
    acceptance ratios, and the result of [updateConfigs]. *)
Definition indOf (s : Sampler) : nat := Z.to_nat (iter s mod randintsResampleAt).

Definition proposalOf (s : Sampler) : list row :=
  propConfigs cm (buf s) (nruns s) (config s) (indOf s).

Definition scoresOf (s : Sampler) : tworows * tworows * tworows :=
  getScores (scoreFunction s) model useOracle (proposalOf s) (config s).

Definition trackerOf (s : Sampler) : Tracker :=
  match tracker s with
  | Some t => t
  | None => initOptima (nruns s) (scoresOf s).1.1 (scoresOf s).1.2 (scoresOf s).2
  end.

Definition deOf (s : Sampler) : option tworows * list R :=
  getDE (STUN s) (gammas s) (absMin (trackerOf s)) (scoresOf s).1.1.

Definition ratioOf (s : Sampler) : list npfloat :=
  acceptanceRatios (deOf s).2 (temperature s).

Definition acceptStep (s : Sampler) : list row * Tracker :=
  updateConfigs (alphaRandoms (buf s)) (indOf s) (ratioOf s) (proposalOf s)
    (scoresOf s).1.1 (scoresOf s).1.2 (scoresOf s).2 (iter s) (nruns s)
    (config s, trackerOf s).

(** [iterate].  In the iteration that calls [initOptima], [self.E0] is row
    1 of [self.scores] itself, so what [saveOptima] writes into [E0] shows
    in that row. *)
Definition iterate (s : Sampler) : Sampler :=
  {| STUN := STUN s; nruns := nruns s; temp0 := temp0 s; temperature := temperature s;
     gammas := gammas s; scoreFunction := scoreFunction s; config := (acceptStep s).1;
     buf := buf s; iter := iter s; ind := indOf s; propConfig := proposalOf s;
     scores := ((scoresOf s).1.1.1,
                match tracker s with
                | Some _ => (scoresOf s).1.1.2
                | None => E0 (acceptStep s).2
                end);
     energy := (scoresOf s).1.2; variance := (scoresOf s).2; F := (deOf s).1;
     DE := (deOf s).2; acceptanceRatio := ratioOf s;
     tracker := Some (acceptStep s).2;
     resetInd := resetInd s; acceptanceRate := acceptanceRate s |}.

(** [self.recInds[i]] and [self.optimalInds[i]], empty where Python would
    raise. *)
Definition recIndsOf (s : Sampler) (i : nat) : list Z :=
  default [] (t ← tracker s; recInds t !! i).

Definition optimalIndsOf (s : Sampler) (i : nat) : list Z :=
  default [] (t ← tracker s; optimalInds t !! i).

Definition history : Z := 100.

(** [np.sum((self.iter - np.asarray(self.recInds[i][-history:])) < history)] *)
Definition acceptedRecently (it : Z) (recs : list Z) : nat :=
  length (filter (λ r, it - r < history)%Z (lastn (Z.to_nat history) recs)).

(** The body of the loop of [updateAnnealing] for trajectory [i]. *)
Definition annealOne (i : nat) (s : Sampler) : Sampler :=
  let s1 := set_acceptanceRate
              (<[i := (INR (acceptedRecently (iter s) (recIndsOf s i)) / IZR history)%R]>
                 (acceptanceRate s)) s in
  let s2 :=
    if decide (acceptanceRate s1 !!! i < target_acceptance_rate)%R then
      set_temperature
        (<[i := (temperature s1 !!! i * (1 + annealU rng (iter s) i))%R]> (temperature s1)) s1
    else
      set_temperature
        (<[i := (temperature s1 !!! i * (1 - annealU rng (iter s) i))%R]> (temperature s1)) s1 in
  if decide (iter s2 - resetInd s2 !!! i > 1000)%Z then
    if decide (iter s2 - last_or 0%Z (optimalIndsOf s2 i) > 1000)%Z then
      let s3 := set_resetInd (<[i := iter s2]> (resetInd s2)) s2 in
      let s4 := resetConfig cm (resetDraw rng (iter s) i) i s3 in
      set_temperature (<[i := temp0 s4]> (temperature s4)) s4
    else s2
  else s2.

Definition updateAnnealing (s : Sampler) : Sampler :=
  foldl (λ s i, annealOne i s) s (seq 0 (nruns s)).

(** The body of the loop of [converge] for iteration [it]. *)
Definition convergeStep (s : Sampler) (it : Z) : Sampler :=
  let s1 := iterate (set_iter it s) in
  let s2 :=
    if decide (it mod deltaIter = 0 ∧ it > 0)%Z then updateAnnealing s1 else s1 in
  if decide (it mod randintsResampleAt = 0)%Z
  then resampleRandints (bufAt rng it) s2 else s2.

(** The iterations [0 .. n-1]. *)
Definition iterations (n : nat) : list Z := Z.of_nat <$> seq 0 n.

(** [converge]; [nIters] is [None] for Python's None.  (The default value
    in the source, False, runs no iteration: it is [Some 0] here.) *)
Definition converge (nIters : option nat) (s : Sampler) : Sampler :=
  let s := resampleRandints (buf0 rng) (initConvergenceStats s) in
  let run_iters := match nIters with None => sampling_time cm | Some n => n end in
  foldl convergeStep s (iterations run_iters).

(** [sample], which passes None for [nIters] unless told otherwise. *)
Definition sample (nIters : option nat) (s : Sampler) : Sampler := converge nIters s.

(** The body of the loop of [postSampleAnnealing]. *)
Definition annealStep (s : Sampler) (it : Z) : Sampler :=
  let s1 := iterate (set_iter it s) in
  let s2 := set_temperature ((λ T, T * (99 / 100))%R <$> temperature s1) s1 in
  if decide (it mod randintsResampleAt = 0)%Z
  then resampleRandints (bufAt rng it) s2 else s2.

(** The lines of [postSampleAnnealing] before its loop; [initConfigs] is a
    two-dimensional array of its own.  [self.config = initConfigs] binds
    the attribute to that array: the views recorded before keep the old
    array ([rebindConfig]). *)
Definition annealStart (initConfigs : list row) (s : Sampler) : Sampler :=
  let n := length initConfigs in
  let s0 :=
    {| STUN := 0; nruns := n; temp0 := (1 / 100)%R;
       temperature := (λ _, (1 / 100)%R) <$> seq 0 n;
       gammas := gammas s; scoreFunction := scoreFunction s; config := initConfigs;
       buf := buf s; iter := iter s; ind := ind s; propConfig := propConfig s;
       scores := scores s; energy := energy s; variance := variance s; F := F s;
       DE := DE s; acceptanceRatio := acceptanceRatio s;
       tracker := rebindConfig (config s) <$> tracker s;
       resetInd := resetInd s; acceptanceRate := acceptanceRate s |} in
  resampleRandints (buf0 rng) (initConvergenceStats s0).

(** [postSampleAnnealing], up to the end of its loop. *)
Definition postSampleAnnealing (initConfigs : list row) (s : Sampler) : Sampler :=
  foldl annealStep (annealStart initConfigs s) (iterations (post_annealing_time cm)).

(** What [postSampleAnnealing] returns: samples, scores, energies and
    uncertainties of the final ensemble. *)
Definition annealedOutputs (s : Sampler) : list row * list R * list R * list R :=
  let evals := getScores (scoreFunction s) model false (config s) (config s) in
  (config s, evals.1.1.1, evals.1.2.1, evals.2.1).

(** [__init__]: the attributes the constructor sets; the others, which do
    not exist yet, are empty. *)
Definition new_Sampler (scoreFunction : R * R) (gammas : list R) : Sampler :=
  let nruns := length gammas in
  let temp0 := (1 / 10)%R in
  {| STUN := 1; nruns := nruns; temp0 := temp0;
     temperature := (λ _, temp0) <$> seq 0 nruns;
     gammas := gammas; scoreFunction := scoreFunction;
     config := getInitConfig cm nruns (initDraw rng);
     buf := {| spinRandints := []; pickSpinRandint := []; alphaRandoms := [];
               changeLengthRandints := []; seqExtensionRandints := [] |};
     iter := 0; ind := 0; propConfig := []; scores := ([], []); energy := ([], []);
     variance := ([], []); F := None; DE := []; acceptanceRatio := [];
     tracker := None; resetInd := []; acceptanceRate := [] |}.
End Run.

(** * The vocabulary of the properties *)

(** The active length of a row: the length of its prefix of nonzero
    symbols. *)
Fixpoint active_length (r : row) : nat :=
  match r with
  | [] => 0
  | z :: r' => if decide (z = 0%Z) then 0 else S (active_length r')
  end.

(** The ensemble invariant of the data model: the active length lies
    between [min_length] and [max_length] and only zeros follow it. *)
Definition valid_row (cm : ConfigMain) (r : row) : bool :=
  bool_decide (min_length cm ≤ Z.of_nat (active_length r) ≤ max_length cm)%Z
  && forallb (λ z, bool_decide (z = 0%Z)) (drop (active_length r) r).

(** Is trajectory [i] accepted: [alphaRandoms[i, ind] < acceptanceRatio[i]]. *)
Definition accepted (alphaRandoms : list (list R)) (ind : nat)
    (acceptanceRatio : list npfloat) (i : nat) : bool :=
  np_lt_l (get2 0%R alphaRandoms i ind) (default NaN (acceptanceRatio !! i)).

(** The STUN transform of one score, for the trajectory's gamma. *)
Definition stun (g absMin s : R) : R := (1 - exp (- g * (s - absMin)))%R.

(** The pool as [saveOptima] sees it after its first two lines: an empty
    pool is first filled with every trajectory's recorded samples. *)
Definition seeded (t : Tracker) : list rowref :=
  if decide (length (allOptimalConfigs t) = 0%nat)
  then allOptimalConfigs t ++ concat (optimalSamples t)
  else allOptimalConfigs t.

(** Does the pool hold a copy of [p]: [any(equals == p.shape[-1])]. *)
Definition has_copy (config : list row) (pool : list rowref) (p : row) : bool :=
  existsb (λ c, bool_decide (c = length p))
    (map (λ e, count_equal p (deref config e)) pool).

(** The claim about the pool: two entries that were both appended after the
    seeding never show the same sequence.  [nseed] is the number of seeded
    entries, which come first. *)
Definition pool_distinct (config : list row) (nseed : nat) (pool : list rowref) : Prop :=
  ∀ j k x y, j < k → nseed ≤ j →
    pool !! j = Some x → pool !! k = Some y → deref config x ≠ deref config y.

(** Everything the sampler holds for trajectory [i] alone: its current
    sequence, its best score, its lists of recorded optima and its
    acceptance record. *)
Definition trajState (i : nat) (st : list row * Tracker) :=
  (st.1 !! i, E0 st.2 !! i, optima st.2 !! i, enAtOptima st.2 !! i,
   varAtOptima st.2 !! i, optimalSamples st.2 !! i, optimalInds st.2 !! i,
   recInds st.2 !! i, newOptima st.2 !! i, newOptimaEn st.2 !! i).

(** The last 100 iterations at iteration [it]: [it - 99 .. it]. *)
Definition window (it : Z) : list Z := seqZ (it - 99) 100.

(** The number of iterations of the window that are in the acceptance
    record. *)
Definition accepted_in_window (it : Z) (recs : list Z) : nat :=
  length (filter (λ t, t ∈ recs) (window it)).

(** What [updateAnnealing] holds for trajectory [i] (its rate, temperature,
    reset iteration and current sequence) together with what its loop
    reads and never writes. *)
Definition annealView (i : nat) (s : Sampler) :=
  (acceptanceRate s !! i, temperature s !! i, resetInd s !! i, config s !! i,
   (iter s, tracker s, temp0 s)).

(** The stagnation test of lines 380 and 381. *)
Definition stagnant (it lastReset lastOptimum : Z) : bool :=
  bool_decide (it - lastReset > 1000)%Z && bool_decide (it - lastOptimum > 1000)%Z.

(** The temperature after lines 374 to 377. *)
Definition modulated (rate T U : R) : R :=
  if decide (rate < target_acceptance_rate)%R then (T * (1 + U))%R else (T * (1 - U))%R.

(** The loop body for [i], as a function of the view of [i]. *)
Definition annealTraj (cm : ConfigMain) (rng : Rng) (i : nat)
    (v : option R * option R * option Z * option row * (Z * option Tracker * R)) :=
  let '(a, T, rI, c, (it, tr, t0)) := v in
  let recs := default [] (t ← tr; recInds t !! i) in
  let opts := default [] (t ← tr; optimalInds t !! i) in
  let rate := (INR (acceptedRecently it recs) / IZR history)%R in
  let a' := (λ _, rate) <$> a in
  let T' := (λ T, modulated (default 0%R a') T (annealU rng it i)) <$> T in
  if stagnant it (default inhabitant rI) (last_or 0%Z opts) then
    (a', (λ _, t0) <$> T', (λ _, it) <$> rI,
     (λ _, makeAConfig cm (resetDraw rng it i)) <$> c, (it, tr, t0))
  else (a', T', rI, c, (it, tr, t0)).

(** The sampler after the first [k] iterations of the loop. *)
Definition annealState (cm : ConfigMain) (model : Model) (useOracle : bool) (rng : Rng)
    (initConfigs : list row) (s : Sampler) (k : nat) : Sampler :=
  foldl (annealStep cm model useOracle rng) (annealStart rng initConfigs s) (iterations k).

(** The tracker's lists have one entry for each trajectory, and the view
    of row [i] is among the samples of trajectory [i] and, once the pool
    is seeded, in the pool. *)
Definition TrInv (n : nat) (t : Tracker) : Prop :=
  length (optima t) = n
  ∧ length (optimalInds t) = n
  ∧ length (optimalSamples t) = n
  ∧ length (recInds t) = n
  ∧ (∀ i, i < n → ∃ l, optimalSamples t !! i = Some l ∧ RowOf i ∈ l)
  ∧ (allOptimalConfigs t ≠ [] → ∀ i, i < n → RowOf i ∈ allOptimalConfigs t).

(** What one accept/update step can do to the recorded scores and to the
    new-best iterations of trajectory [i]: nothing, or append one score
    together with the present iteration. *)
Definition stepRel (it : Z) (i : nat) (t t' : Tracker) : Prop :=
  (optima t' !! i = optima t !! i ∧ optimalInds t' !! i = optimalInds t !! i)
  ∨ (∃ x, optima t' !! i = (λ l, l ++ [x]) <$> optima t !! i
        ∧ optimalInds t' !! i = (λ l, l ++ [it]) <$> optimalInds t !! i).

(** [absMin] is the least of the trajectories' best scores. *)
Definition AbsMinInv (t : Tracker) : Prop :=
  Forall (λ e, absMin t <= e)%R (E0 t) ∧ (E0 t ≠ [] → absMin t ∈ E0 t).

(** The scores recorded for trajectory [i]: [self.optima[i]]. *)
Definition optimaOf (s : Sampler) (i : nat) : list R :=
  default [] (t ← tracker s; optima t !! i).

(** Was a sequence recorded for trajectory [i] between [s] and [s']? *)
Definition recordedAt (s s' : Sampler) (i : nat) : bool :=
  bool_decide (length (optimaOf s i) < length (optimaOf s' i)).

(** ** A run of [converge] on a new sampler *)

Section RunOfConverge.
Context (cm : ConfigMain) (model : Model) (useOracle : bool) (rng : Rng).
Context (scoreFunction0 : R * R) (gammas0 : list R).

(** The sampler when the loop of [converge] starts. *)
Definition runStart : Sampler :=
  resampleRandints (buf0 rng)
    (initConvergenceStats (new_Sampler cm rng scoreFunction0 gammas0)).

(** The sampler after the iterations [0 .. n-1] of the loop. *)
Definition runState (n : nat) : Sampler :=
  foldl (convergeStep cm model useOracle rng) runStart (iterations n).

(** The sampler in iteration [n] after [iterate]: the state in which
    [updateAnnealing] is invoked, if it is. *)
Definition midState (n : nat) : Sampler :=
  iterate cm model useOracle (set_iter (Z.of_nat n) (runState n)).

(** The last iteration up to [n] in which a sequence was recorded for
    trajectory [i].  Iteration 0 records the initial sequence
    ([initOptima]). *)
Fixpoint lastRecorded (n : nat) (i : nat) : Z :=
  match n with
  | 0 => 0
  | S m =>
      if recordedAt (runState (S m)) (midState (S m)) i then Z.of_nat (S m)
      else lastRecorded m i
  end.

(** What holds of the sampler throughout the run. *)
Definition InvRun (s : Sampler) : Prop :=
  nruns s = length gammas0
  ∧ length (config s) = length gammas0
  ∧ length (temperature s) = length gammas0
  ∧ length (resetInd s) = length gammas0
  ∧ temp0 s = (1 / 10)%R
  ∧ ∀ t, tracker s = Some t → TrInv (length gammas0) t.

End RunOfConverge.

(** * Concrete inputs *)

(** A configuration with variable length, lengths 1 to 4 and 4 symbols. *)
Definition cm_var : ConfigMain :=
  {| variable_length := true; min_length := 1; max_length := 4; dict_size := 4;
     sampling_time := 1; post_annealing_time := 1 |}.

(** Buffers for one trajectory and one column: the draws of iteration 0. *)
Definition buf_one (spin : Z) (pick : nat) (alpha : R) (change ext : Z) : RandBuf :=
  {| spinRandints := [[spin]]; pickSpinRandint := [[pick]]; alphaRandoms := [[alpha]];
     changeLengthRandints := [[change]]; seqExtensionRandints := [[ext]] |}.

(** A configuration with the fixed length 2 and 4 symbols. *)
Definition cm_fix : ConfigMain :=
  {| variable_length := false; min_length := 2; max_length := 2; dict_size := 4;
     sampling_time := 1; post_annealing_time := 1 |}.

(** The oracle scores a sequence 1 if it starts with the symbol 1, and 2
    otherwise. *)
Definition model_first : Model :=
  {| oracle_score := map (λ r : row, if decide (hd 0%Z r = 1%Z) then 1%R else 2%R);
     learned_DQN := false;
     evaluateQ := λ _, [];
     evaluate := λ _, ([], []) |}.

(** Every draw of a symbol is [sym], every position 0, every uniform
    number 0, and the length is never changed. *)
Definition buf_two (sym : Z) : RandBuf :=
  {| spinRandints := [[sym]; [sym]]; pickSpinRandint := [[0]; [0]];
     alphaRandoms := [[0%R]; [0%R]]; changeLengthRandints := [[0%Z]; [0%Z]];
     seqExtensionRandints := [[sym]; [sym]] |}.

(** A generator for two trajectories: every initial sequence is [2;2] and
    every buffer is [buf_two 1]. *)
Definition rng_two : Rng :=
  {| initDraw := λ _, {| randChainLen := 2; randSymbol := λ _, 2%Z |};
     buf0 := buf_two 1;
     bufAt := λ _, buf_two 1;
     annealU := λ _ _, 0%R;
     resetDraw := λ _ _, {| randChainLen := 2; randSymbol := λ _, 2%Z |} |}.

(** The sampler at the start of iteration 0 of [converge]. *)
Definition start_two : Sampler :=
  set_iter 0
    (resampleRandints (buf0 rng_two)
       (initConvergenceStats (new_Sampler cm_fix rng_two (1%R, 0%R) [1%R; 1%R]))).

(** A generator for one trajectory of variable length: the initial
    sequence is [1;2;0;0]; in every iteration position 3 is mutated to the
    symbol 1, the length is left alone and the uniform number is 0. *)
Definition rng_var : Rng :=
  {| initDraw := λ _, {| randChainLen := 2; randSymbol := λ k, Z.of_nat (S k) |};
     buf0 := buf_one 1 3 0 0 1;
     bufAt := λ _, buf_one 1 3 0 0 1;
     annealU := λ _ _, 0%R;
     resetDraw := λ _ _, {| randChainLen := 2; randSymbol := λ k, Z.of_nat (S k) |} |}.

(** The sampler at the start of iteration 0 of [converge], for one
    trajectory of variable length. *)
Definition start_var : Sampler :=
  set_iter 0
    (resampleRandints (buf0 rng_var)
       (initConvergenceStats (new_Sampler cm_var rng_var (1%R, 0%R) [1%R]))).

(** The energy difference of trajectory 0 in iteration 0 of the small run. *)
Definition de_two : R :=
  (1 - exp (- (1) * (1 * 1 - 0 * 0 - Rmin (1 * 2 - 0 * 0) (1 * 2 - 0 * 0)))
   - (1 - exp (- (1) * (1 * 2 - 0 * 0 - Rmin (1 * 2 - 0 * 0) (1 * 2 - 0 * 0)))))%R.

(** One trajectory at iteration 10 that was accepted in the iterations 3,
    5 and 10. *)
Definition anneal_example : Sampler :=
  {| STUN := 1; nruns := 1; temp0 := (1 / 10)%R; temperature := [(1 / 10)%R];
     gammas := [1%R]; scoreFunction := (1%R, 0%R); config := [[2; 2]%Z];
     buf := buf_one 1 0 0 0 1; iter := 10; ind := 10; propConfig := [[1; 2]%Z];
     scores := ([1%R], [2%R]); energy := ([1%R], [2%R]); variance := ([0%R], [0%R]);
     F := None; DE := [0%R]; acceptanceRatio := [Fin 1];
     tracker := Some {| E0 := [1%R]; absMin := 1%R; optima := [[2%R; 1%R]];
                        enAtOptima := [[2%R; 1%R]]; varAtOptima := [[0%R; 0%R]];
                        optimalSamples := [[RowOf 0; Snap [1; 2]%Z]];
                        optimalInds := [[0; 3]%Z]; recInds := [[3; 5; 10]%Z];
                        newOptima := [[RowOf 0; Snap [1; 2]%Z]];
                        newOptimaEn := [[2%R; 1%R]];
                        allOptimalConfigs := [RowOf 0; Snap [1; 2]%Z] |};
     resetInd := [0%Z]; acceptanceRate := [0%R] |}.

(** * Further parts of the source *)

(** ** The end of [converge], [__call__] and [sample]

    The last line of [converge] prints [len(self.allOptimalConfigs)].
    That attribute is created by [initOptima]: when no iteration has ever
    run on the sampler, reading it raises AttributeError, which is [None]
    here.  Otherwise the sampler is returned with the printed count. *)
Definition converge_report (s : Sampler) : option (Sampler * nat) :=
  t ← tracker s; Some (s, length (allOptimalConfigs t)).

(** [converge] with its last line. *)
Definition converge_full (cm : ConfigMain) (model : Model) (useOracle : bool) (rng : Rng)
    (nIters : option nat) (s : Sampler) : option (Sampler * nat) :=
  converge_report (converge cm model useOracle rng nIters s).

(** [__call__]: [self.converge(model)], with the default arguments
    [useOracle = False] and [nIters = False]; [range(False)] is empty. *)
Definition call (cm : ConfigMain) (model : Model) (rng : Rng) (s : Sampler)
    : option (Sampler * nat) :=
  converge_full cm model false rng (Some 0) s.

(** ** The debug records: [initRecs] and [recordStats]

    An index out of range raises IndexError: [None]. *)
Record Recs := {
  temprec : list (list R);
  accrec : list (list R);
  stunrec : list (list R);
  scorerec : list (list R);
  enrec : list (list R);
  varrec : list (list R)
}.

Definition initRecs (nruns : nat) : Recs :=
  {| temprec := (λ _, []) <$> seq 0 nruns;
     accrec := (λ _, []) <$> seq 0 nruns;
     stunrec := (λ _, []) <$> seq 0 nruns;
     scorerec := (λ _, []) <$> seq 0 nruns;
     enrec := (λ _, []) <$> seq 0 nruns;
     varrec := (λ _, []) <$> seq 0 nruns |}.

(** [a[i].append(x)] *)
Definition append_at (i : nat) (x : R) (a : list (list R)) : option (list (list R)) :=
  l ← a !! i; Some (<[i := l ++ [x]]> a).

(** The body of the loop of [recordStats] for trajectory [i].  The test
    [if self.config_main.STUN] is true for every nonzero value; [F] is
    [None] for the placeholder [[0, 0]], whose entries cannot be indexed. *)
Definition recordOne (s : Sampler) (i : nat) (r : Recs) : option Recs :=
  T ← temperature s !! i; tr ← append_at i T (temprec r);
  a ← acceptanceRate s !! i; ar ← append_at i a (accrec r);
  sc ← (scores s).1 !! i; sr ← append_at i sc (scorerec r);
  en ← (energy s).1 !! i; er ← append_at i en (enrec r);
  va ← (variance s).1 !! i; vr ← append_at i va (varrec r);
  if decide (STUN s ≠ 0%Z) then
    f ← F s; x ← f.1 !! i; fr ← append_at i x (stunrec r);
    Some {| temprec := tr; accrec := ar; stunrec := fr; scorerec := sr;
            enrec := er; varrec := vr |}
  else
    Some {| temprec := tr; accrec := ar; stunrec := stunrec r; scorerec := sr;
            enrec := er; varrec := vr |}.

Definition recordStats (s : Sampler) (r : Recs) : option Recs :=
  foldl (λ o i, r ← o; recordOne s i r) (Some r) (seq 0 (nruns s)).

(** * More vocabulary *)

(** A row of full length without zeros. *)
Definition full_row (cm : ConfigMain) (r : row) : Prop :=
  length r = Z.to_nat (max_length cm) ∧ Forall (λ z, z ≠ 0%Z) r.

(** The first symbol buffer holds, for every trajectory below [n] and
    every column, a symbol between 1 and [d], as [randint(1, d + 1)]
    draws it. *)
Definition spins_in_range (n : nat) (d : Z) (b : RandBuf) : Prop :=
  ∀ i ind, i < n → ind < Z.to_nat randintsResampleAt →
    (1 ≤ get2 0%Z (spinRandints b) i ind ≤ d)%Z.

(** Buffers with [n] rows of [randintsResampleAt] columns, all draws as in [buf_two]. *)
Definition buf_wide (n : nat) (sym : Z) : RandBuf :=
  {| spinRandints := replicate n (replicate (Z.to_nat randintsResampleAt) sym);
     pickSpinRandint := replicate n (replicate (Z.to_nat randintsResampleAt) 0);
     alphaRandoms := replicate n (replicate (Z.to_nat randintsResampleAt) 0%R);
     changeLengthRandints := replicate n (replicate (Z.to_nat randintsResampleAt) 0%Z);
     seqExtensionRandints := replicate n (replicate (Z.to_nat randintsResampleAt) sym) |}.

(** A generator whose buffers are wide enough for every iteration. *)
Definition rng_wide : Rng :=
  {| initDraw := λ _, {| randChainLen := 2; randSymbol := λ _, 2%Z |};
     buf0 := buf_wide 2 1;
     bufAt := λ _, buf_wide 2 1;
     annealU := λ _ _, 0%R;
     resetDraw := λ _ _, {| randChainLen := 2; randSymbol := λ _, 2%Z |} |}.

(** The draws of a sequence of length 2: the symbol 1, then 2 for ever. *)
Definition draw_12 : ConfigDraw :=
  {| randChainLen := 2; randSymbol := λ k, if decide (k = 0) then 1%Z else 2%Z |}.

(** The rows of the ensemble have the property [P], and the buffers in use
    are among those the generator returns, as they are stored. *)
Definition RowsInv (P : row → Prop) (rng : Rng) (s : Sampler) : Prop :=
  Forall P (config s)
  ∧ (buf s = stored (buf0 rng) ∨ ∃ it, buf s = stored (bufAt rng it)).

(** From [t] to [t'] no best score and not the shared minimum has risen. *)
Definition not_worse (t t' : Tracker) : Prop :=
  length (E0 t') = length (E0 t)
  ∧ (absMin t' <= absMin t)%R
  ∧ ∀ i e e', E0 t !! i = Some e → E0 t' !! i = Some e' → (e' <= e)%R.



(** Trajectory [i] has as many recorded scores as new-best iterations. *)
Definition balanced (i : nat) (t : Tracker) : Prop :=
  ∃ lo li, optima t !! i = Some lo ∧ optimalInds t !! i = Some li
           ∧ length lo = length li ∧ 0 < length lo.

(** A rate that is a number of iterations out of 100. *)
Definition is_fraction (a : R) : Prop := ∃ k : nat, k ≤ 100 ∧ a = (INR k / 100)%R.

(** [a'] is [a] with [vals[i]] appended to the list of every trajectory
    [i < k]. *)
Definition appended (k : nat) (vals : list R) (a a' : list (list R)) : Prop :=
  length a' = length a
  ∧ ∀ i, a' !! i
         = if decide (i < k) then (λ l, l ++ [vals !!! i]) <$> a !! i else a !! i.

(** The scores recorded for trajectory [i] are strictly decreasing and the
    last of them is the trajectory's best score [E0[i]]. *)
Definition improving (i : nat) (t : Tracker) : Prop :=
  ∃ lo e, optima t !! i = Some lo ∧ E0 t !! i = Some e
          ∧ last lo = Some e ∧ StronglySorted (λ x y, y < x)%R lo.

(** * Properties *)

(** ** Loops over the trajectories

    The loops [for i in range(self.nruns)] are folds over [seq 0 nruns].
    A quantity that only the body for [i] writes, and that the body for
    [i] computes from that quantity alone, has after the loop the value
    the body for [i] gives it on the state before the loop. *)
Lemma foldl_seq_local {St A} (step : St → nat → St) (π : St → A) (i n : nat) (s : St) :
  (∀ j s, j ≠ i → π (step s j) = π s) →
  (∀ s1 s2, π s1 = π s2 → π (step s1 i) = π (step s2 i)) →
  π (foldl step s (seq 0 n)) = if decide (i < n) then π (step s i) else π s.
Proof.
  intros Hframe Hlocal. induction n as [|n IH].
  - by rewrite decide_False by lia.
  - rewrite seq_S, foldl_app. simpl foldl.
    destruct (decide (n = i)) as [->|Hne].
    + rewrite decide_True by lia. apply Hlocal.
      rewrite IH. by rewrite decide_False by lia.
    + rewrite Hframe by done. rewrite IH.
      destruct (decide (i < n)), (decide (i < S n)); (done || lia).
Qed.

(** A quantity no body writes is the same after the loop. *)
Lemma foldl_preserved {St B A} (step : St → B → St) (π : St → A) (l : list B) (s : St) :
  (∀ j s, π (step s j) = π s) → π (foldl step s l) = π s.
Proof.
  intros H. revert s. induction l as [|x l IH]; intros s; [done|].
  simpl. by rewrite IH, H.
Qed.

(** An invariant of the body is an invariant of the loop. *)
Lemma foldl_invariant {St B} (step : St → B → St) (P : St → Prop) (l : list B) (s : St) :
  (∀ j s, P s → P (step s j)) → P s → P (foldl step s l).
Proof.
  intros H. revert s. induction l as [|x l IH]; intros s Hs; [done|].
  simpl. apply IH, H, Hs.
Qed.

(** ** The proposal engine *)

Lemma length_propRow cm b ind i r : length (propRow cm b ind i r) = length r.
Proof.
  unfold propRow. repeat case_match; by rewrite ?length_insert.
Qed.

Lemma length_propConfigs cm b n c ind : length (propConfigs cm b n c ind) = length c.
Proof.
  unfold propConfigs.
  apply (foldl_invariant _ (λ P, length P = length c)); [|done].
  intros j P HP. by rewrite length_alter.
Qed.

(** Row [i] of the proposal is the loop body applied to row [i] of
    [config]. *)
Lemma lookup_propConfigs cm b n c ind i :
  i < n → propConfigs cm b n c ind !! i = propRow cm b ind i <$> c !! i.
Proof.
  intros Hi. unfold propConfigs.
  rewrite (foldl_seq_local _ (λ P, P !! i) i n c).
  - rewrite decide_True by done. by rewrite list_lookup_alter_eq.
  - intros j P Hj. by rewrite list_lookup_alter_ne.
  - intros P1 P2 HP. by rewrite !list_lookup_alter_eq, HP.
Qed.

(** With the direction draw at -1 the loop body is the mutation alone:
    the branch that shortens tests [nnz == -1], which a count never is. *)
Lemma propRow_shorten_dead cm b ind i r :
  get2 0%Z (changeLengthRandints b) i ind = (-1)%Z →
  propRow cm b ind i r
  = <[get2 0%nat (pickSpinRandint b) i ind := get2 0%Z (spinRandints b) i ind]> r.
Proof.
  intros H. unfold propRow. rewrite H.
  destruct (variable_length cm); [|done].
  rewrite decide_False by lia. rewrite decide_False by lia.
  rewrite decide_False; [done|]. unfold count_nonzero. lia.
Qed.

(** ** The accept/update step *)

Lemma recInds_saveOptima c p sc en va it ind nb t :
  recInds (saveOptima c p sc en va it ind nb t) = recInds t.
Proof. unfold saveOptima. by repeat case_match. Qed.

Section UpdateConfigsFacts.
Context (al : list (list R)) (ind : nat) (ratio : list npfloat) (prop : list row).
Context (sc en va : tworows) (it : Z).

Lemma acceptOne_rejected i st :
  accepted al ind ratio i = false → acceptOne al ind ratio prop sc en va it i st = st.
Proof. unfold accepted, acceptOne. destruct st. by intros ->. Qed.

Lemma acceptOne_config i st :
  (acceptOne al ind ratio prop sc en va it i st).1
  = if accepted al ind ratio i then <[i := prop !!! i]> st.1 else st.1.
Proof.
  unfold accepted, acceptOne. destruct st as [c t]. simpl.
  by repeat case_match.
Qed.

Lemma acceptOne_recInds i st :
  recInds (acceptOne al ind ratio prop sc en va it i st).2
  = if accepted al ind ratio i then alter (λ l, l ++ [it]) i (recInds st.2)
    else recInds st.2.
Proof.
  unfold accepted, acceptOne. destruct st as [c t]. simpl.
  destruct (np_lt_l _ _); [|done].
  destruct (if bool_decide _ then true else _); simpl;
    by rewrite ?recInds_saveOptima.
Qed.

(** After the loop, row [i] of [config] and the acceptance record of
    trajectory [i] are what the body for [i] makes of them. *)
Lemma updateConfigs_row i n st :
  i < n →
  (updateConfigs al ind ratio prop sc en va it n st).1 !! i
  = if accepted al ind ratio i then <[i := prop !!! i]> st.1 !! i else st.1 !! i.
Proof.
  intros Hi. unfold updateConfigs.
  rewrite (foldl_seq_local _ (λ st : list row * Tracker, st.1 !! i) i n st).
  - rewrite decide_True by done. rewrite acceptOne_config. by case_match.
  - intros j st' Hj. rewrite acceptOne_config.
    case_match; [|done]. by rewrite list_lookup_insert_ne.
  - intros st1 st2 H12. rewrite !acceptOne_config. case_match; [|done].
    rewrite !list_lookup_insert. rewrite H12.
    assert (i < length st1.1 ↔ i < length st2.1) as Hlen.
    { rewrite <-!lookup_lt_is_Some. by rewrite H12. }
    repeat case_decide; (done || tauto).
Qed.

Lemma updateConfigs_recInds i n st :
  i < n →
  recInds (updateConfigs al ind ratio prop sc en va it n st).2 !! i
  = if accepted al ind ratio i then (λ l, l ++ [it]) <$> recInds st.2 !! i
    else recInds st.2 !! i.
Proof.
  intros Hi. unfold updateConfigs.
  rewrite (foldl_seq_local _ (λ st : list row * Tracker, recInds st.2 !! i) i n st).
  - rewrite decide_True by done. rewrite acceptOne_recInds.
    case_match; [|done]. by rewrite list_lookup_alter_eq.
  - intros j st' Hj. rewrite acceptOne_recInds.
    case_match; [|done]. by rewrite list_lookup_alter_ne.
  - intros st1 st2 H12. rewrite !acceptOne_recInds. case_match; [|done].
    by rewrite !list_lookup_alter_eq, H12.
Qed.

Lemma length_updateConfigs n st :
  length (updateConfigs al ind ratio prop sc en va it n st).1 = length st.1.
Proof.
  unfold updateConfigs.
  apply (foldl_invariant _ (λ st' : list row * Tracker, length st'.1 = length st.1)); [|done].
  intros j st' H. rewrite acceptOne_config. case_match; [|done].
  by rewrite length_insert.
Qed.
End UpdateConfigsFacts.

(** The ensemble after [updateConfigs] for a single trajectory. *)
Lemma updateConfigs_config_one al ind ratio prop sc en va it c t :
  (updateConfigs al ind ratio prop sc en va it 1 (c, t)).1
  = if accepted al ind ratio 0 then <[0 := prop !!! 0]> c else c.
Proof. unfold updateConfigs. cbn [foldl seq]. by rewrite acceptOne_config. Qed.

Lemma acceptStep_config_eq cm model useOracle s :
  (acceptStep cm model useOracle s).1
  = (updateConfigs (alphaRandoms (buf s)) (indOf s) (ratioOf cm model useOracle s)
       (proposalOf cm s) (scoresOf cm model useOracle s).1.1
       (scoresOf cm model useOracle s).1.2 (scoresOf cm model useOracle s).2
       (iter s) (nruns s) (config s, trackerOf cm model useOracle s)).1.
Proof. done. Qed.

(** The acceptance ratio of a trajectory with a positive temperature. *)
Lemma acceptanceRatios_lookup DE Ts i de T :
  DE !! i = Some de → Ts !! i = Some T → (0 < T)%R →
  acceptanceRatios DE Ts !! i = Some (Fin (Rmin 1 (exp (- de / T)))).
Proof.
  intros Hde HT Hpos. unfold acceptanceRatios.
  rewrite lookup_zip_with, Hde, HT. simpl.
  unfold np_div. rewrite decide_False by lra. done.
Qed.

Lemma Rmin1_exp_bounds x : (0 < Rmin 1 (exp x) <= 1)%R.
Proof.
  split; [|apply Rmin_l].
  apply Rmin_glb_lt; [lra|apply exp_pos].
Qed.

Lemma recInds_initOptima n sc en va i :
  i < n → recInds (initOptima n sc en va) !! i = Some [].
Proof.
  intros Hi. simpl. rewrite list_lookup_fmap, lookup_seq_lt by done. done.
Qed.

Section IterateFacts.
Context (cm : ConfigMain) (model : Model) (useOracle : bool).

Abbreviation iterate' := (iterate cm model useOracle).
Abbreviation acceptStep' := (acceptStep cm model useOracle).
Abbreviation trackerOf' := (trackerOf cm model useOracle).
Abbreviation proposalOf' := (proposalOf cm).

Lemma length_proposalOf s : length (proposalOf' s) = length (config s).
Proof. apply length_propConfigs. Qed.

(** The acceptance record of trajectory [i] at the start of
    [updateConfigs]. *)
Lemma recInds_trackerOf s i :
  i < nruns s →
  (∀ t, tracker s = Some t → length (recInds t) = nruns s) →
  recInds (trackerOf' s) !! i = Some (recIndsOf s i).
Proof.
  intros Hi Hrec. unfold trackerOf, recIndsOf.
  destruct (tracker s) as [t|] eqn:Ht; simpl.
  - destruct (recInds t !! i) as [l|] eqn:Hli; [done|].
    apply lookup_ge_None in Hli. specialize (Hrec t eq_refl). lia.
  - by rewrite list_lookup_fmap, lookup_seq_lt.
Qed.
End IterateFacts.

(** C1: in an iteration, for a trajectory [i] with temperature [T > 0] and
    energy difference [de], the acceptance ratio is [min(1, exp(-de/T))],
    a number in [0,1]; the proposal is accepted exactly when the uniform
    draw of [i] for this iteration is below the ratio; on acceptance row
    [i] of [config] is the whole row [i] of this iteration's proposal and
    the iteration is appended to the acceptance record, otherwise both are
    left as they were. *)
Theorem C1_metropolis_acceptance cm model useOracle (s : Sampler) (i : nat) (T de : R) :
  i < nruns s →
  length (config s) = nruns s →
  (∀ t, tracker s = Some t → length (recInds t) = nruns s) →
  temperature s !! i = Some T →
  (0 < T)%R →
  DE (iterate cm model useOracle s) !! i = Some de →
  let s' := iterate cm model useOracle s in
  let a := get2 0%R (alphaRandoms (buf s)) i (ind s') in
  let ratio := Rmin 1 (exp (- de / T)) in
  acceptanceRatio s' !! i = Some (Fin ratio)
  ∧ (0 <= ratio <= 1)%R
  ∧ propConfig s' = propConfigs cm (buf s) (nruns s) (config s) (ind s')
  ∧ ((a < ratio)%R →
       is_Some (propConfig s' !! i)
       ∧ config s' !! i = propConfig s' !! i
       ∧ recIndsOf s' i = recIndsOf s i ++ [iter s])
  ∧ (¬ (a < ratio)%R →
       config s' !! i = config s !! i
       ∧ recIndsOf s' i = recIndsOf s i).
Proof.
  intros Hi Hlen Hrec HT Hpos Hde s' a ratio.
  assert (acceptanceRatio s' !! i = Some (Fin ratio)) as Hratio.
  { by apply acceptanceRatios_lookup. }
  assert (accepted (alphaRandoms (buf s)) (ind s') (acceptanceRatio s') i
          = bool_decide (a < ratio)%R) as Hacc.
  { unfold accepted. by rewrite Hratio. }
  assert (is_Some (propConfig s' !! i)) as [p Hp].
  { apply lookup_lt_is_Some. simpl. rewrite length_proposalOf. lia. }
  pose proof (recInds_trackerOf cm model useOracle s i Hi Hrec) as Hl.
  split; [done|]. split.
  { subst ratio. pose proof (Rmin1_exp_bounds (- de / T)). lra. }
  split; [done|].
  assert (config s' !! i
          = if bool_decide (a < ratio)%R then <[i := propConfig s' !!! i]> (config s) !! i
            else config s !! i) as Hcfg.
  { rewrite <-Hacc. simpl. unfold acceptStep. by rewrite updateConfigs_row. }
  assert (recIndsOf s' i
          = if bool_decide (a < ratio)%R then recIndsOf s i ++ [iter s]
            else recIndsOf s i) as Hrecs.
  { rewrite <-Hacc. unfold recIndsOf at 1. simpl. unfold acceptStep.
    rewrite updateConfigs_recInds by done. simpl. rewrite Hl.
    by destruct (accepted _ _ _ _). }
  split.
  - intros Ha. rewrite bool_decide_eq_true_2 in Hcfg, Hrecs by done.
    split; [by exists p|]. split; [|done].
    rewrite Hcfg, list_lookup_insert_eq by lia.
    by rewrite (list_lookup_total_correct _ _ _ Hp).
  - intros Ha. by rewrite bool_decide_eq_false_2 in Hcfg, Hrecs by done.
Qed.

(** ** The energy difference *)

Lemma computeSTUN_lookup gs m sc i g x :
  gs !! i = Some g → sc !! i = Some x →
  computeSTUN gs m sc !! i = Some (stun g m x).
Proof.
  intros Hg Hx. unfold computeSTUN. by rewrite lookup_zip_with, Hg, Hx.
Qed.

Lemma getDE_lookup st gs m (sc : tworows) i g sp scur :
  gs !! i = Some g → sc.1 !! i = Some sp → sc.2 !! i = Some scur →
  (getDE st gs m sc).2 !! i
  = Some (if decide (st = 1%Z) then stun g m sp - stun g m scur else sp - scur)%R.
Proof.
  intros Hg Hp Hc. unfold getDE. case_decide; simpl.
  - rewrite lookup_zip_with.
    by rewrite (computeSTUN_lookup _ _ _ _ _ _ Hg Hp),
               (computeSTUN_lookup _ _ _ _ _ _ Hg Hc).
  - by rewrite lookup_zip_with, Hp, Hc.
Qed.

(** ** The pool of recorded sequences *)

Lemma count_equal_refl p : count_equal p p = length p.
Proof.
  unfold count_equal. induction p as [|z p IH]; [done|].
  simpl. rewrite bool_decide_eq_true_2 by done.
  rewrite filter_cons_True by done. simpl. by rewrite IH.
Qed.

Lemma has_copy_elem config pool p e :
  e ∈ pool → deref config e = p → has_copy config pool p = true.
Proof.
  intros He Hp. unfold has_copy. apply existsb_exists.
  exists (count_equal p (deref config e)). split.
  - apply in_map_iff. exists e. split; [done|]. by apply list_elem_of_In.
  - apply bool_decide_eq_true_2. rewrite Hp. apply count_equal_refl.
Qed.

Lemma pool_saveOptima c p sc en va it ind nb t :
  allOptimalConfigs (saveOptima c p sc en va it ind nb t)
  = if negb (has_copy c (seeded t) (p !!! ind)) || nb
    then seeded t ++ [Snap (p !!! ind)] else seeded t.
Proof.
  unfold saveOptima, has_copy, seeded.
  destruct nb; simpl.
  - by rewrite orb_true_r.
  - rewrite orb_false_r. by destruct (negb _).
Qed.

(** C5, amended: a recording that is not a new best is appended to the
    pool only if no entry of the (seeded) pool shows the same sequence at
    that moment; a recording that is a new best is appended whether or not
    the pool holds a copy. *)
Theorem C5_dedup_unless_new_best c p sc en va it ind nb (t : Tracker) :
  let x := p !!! ind in
  let pool' := allOptimalConfigs (saveOptima c p sc en va it ind nb t) in
  pool' = (if nb then seeded t ++ [Snap x]
           else if has_copy c (seeded t) x then seeded t
           else seeded t ++ [Snap x])
  ∧ (∀ e, e ∈ seeded t → deref c e = x → has_copy c (seeded t) x = true).
Proof.
  intros x pool'. split.
  - subst pool'. rewrite pool_saveOptima. fold x.
    destruct nb; [by rewrite orb_true_r|].
    rewrite orb_false_r. by destruct (has_copy _ _ _).
  - intros e He Hx. by eapply has_copy_elem.
Qed.

(** ** A small run: two trajectories, sequences of fixed length 2 *)

Lemma accepted_zero_draw al ind DE Ts i T :
  get2 0%R al i ind = 0%R → is_Some (DE !! i) → Ts !! i = Some T → (0 < T)%R →
  accepted al ind (acceptanceRatios DE Ts) i = true.
Proof.
  intros Hal [de Hde] HT Hpos. unfold accepted.
  rewrite (acceptanceRatios_lookup _ _ _ _ _ Hde HT Hpos), Hal. simpl.
  apply bool_decide_eq_true_2. apply Rmin1_exp_bounds.
Qed.



(** Decide the comparisons of real constants met while running the model
    on concrete inputs. *)
Ltac Rdecide :=
  repeat match goal with
  | |- context [bool_decide (?a < ?b)%R] =>
      first [ rewrite (bool_decide_eq_true_2 (a < b)%R) by lra
            | rewrite (bool_decide_eq_false_2 (a < b)%R) by lra ]
  | |- context [decide (?a < ?b)%R] =>
      first [ rewrite (decide_True (P := (a < b)%R)) by lra
            | rewrite (decide_False (P := (a < b)%R)) by lra ]
  | |- context [decide (?a = ?b :> R)] =>
      first [ rewrite (decide_True (P := (a = b :> R))) by lra
            | rewrite (decide_False (P := (a = b :> R))) by lra ]
  end.

(** A uniform draw of 0 is below every acceptance ratio computed with a
    nonzero temperature. *)
Ltac accept_zero :=
  repeat match goal with
  | |- context [np_lt_l ?a (np_minimum1 (np_exp (np_div ?x ?T)))] =>
      replace (np_lt_l a (np_minimum1 (np_exp (np_div x T)))) with true
        by (unfold np_div; rewrite (decide_False (P := (T = 0%R :> R))) by lra;
            simpl; symmetry; apply bool_decide_eq_true_2; apply Rmin1_exp_bounds)
  end.

(** The pool after iteration 0 of the small run: both trajectories start
    at [2;2], propose [1;2], are accepted and find a new best. *)
Lemma pool_after_first_iteration :
  allOptimalConfigs <$> tracker (iterate cm_fix model_first true start_two)
  = Some [RowOf 0; RowOf 1; Snap [1; 2]%Z; Snap [1; 2]%Z].
Proof.
  assert (indOf start_two = 0) as Hi by reflexivity.
  assert (proposalOf cm_fix start_two = [[1; 2]; [1; 2]]%Z) as Hp by reflexivity.
  assert (config start_two = [[2; 2]; [2; 2]]%Z) as Hc by reflexivity.
  unfold iterate. cbn [tracker fmap option_fmap option_map]. f_equal.
  unfold acceptStep, updateConfigs. rewrite Hi, Hp, Hc.
  simpl. accept_zero. Rdecide.
  unfold saveOptima. simpl. Rdecide. simpl.
  unfold acceptOne. simpl. accept_zero. Rdecide. simpl. Rdecide. simpl.
  reflexivity.
Qed.

(** C5, as stated, fails: after iteration 0 of the small run the pool holds
    the sequence [1;2] twice after its two seeded entries, once for each
    trajectory that found it as a new best. *)
Lemma C5_new_best_recorded_twice :
  length (concat (optimalSamples (trackerOf cm_fix model_first true start_two))) = 2
  ∧ ∃ t, tracker (iterate cm_fix model_first true start_two) = Some t
       ∧ ¬ pool_distinct (config (iterate cm_fix model_first true start_two)) 2
             (allOptimalConfigs t).
Proof.
  split; [reflexivity|].
  pose proof pool_after_first_iteration as H.
  destruct (tracker (iterate cm_fix model_first true start_two)) as [t|]; [|done].
  exists t. split; [done|]. simpl in H. injection H as H. rewrite H.
  intros Hd.
  apply (Hd 2 3 (Snap [1; 2]%Z) (Snap [1; 2]%Z)); (lia || done).
Qed.

(** ** The proposal engine and the padding *)

(** With the direction draw at 0 the loop body is the mutation alone. *)
Lemma propRow_no_change cm b ind i r :
  get2 0%Z (changeLengthRandints b) i ind = 0%Z →
  propRow cm b ind i r
  = <[get2 0%nat (pickSpinRandint b) i ind := get2 0%Z (spinRandints b) i ind]> r.
Proof.
  intros H. unfold propRow. rewrite H.
  destruct (variable_length cm); [|done]. by rewrite decide_True.
Qed.

(** With variable length and the direction draw at +1, the extension
    symbol is written at position [nnz] of the mutated row if [nnz] is
    below [max_length], and nothing more is done otherwise. *)
Lemma propRow_extend cm b ind i r :
  variable_length cm = true →
  get2 0%Z (changeLengthRandints b) i ind = 1%Z →
  let r1 := <[get2 0%nat (pickSpinRandint b) i ind := get2 0%Z (spinRandints b) i ind]> r in
  propRow cm b ind i r
  = if decide (count_nonzero r1 < max_length cm)%Z
    then <[Z.to_nat (count_nonzero r1) := get2 0%Z (seqExtensionRandints b) i ind]> r1
    else r1.
Proof.
  intros Hv H. unfold propRow. rewrite Hv, H.
  rewrite decide_False by lia. by rewrite decide_True.
Qed.

(** What does hold of the padding: [makeAConfig] returns valid sequences,
    and with fixed length a proposal of nonzero symbols stays valid. *)
Lemma active_length_app (l1 l2 : row) :
  Forall (λ z, z ≠ 0%Z) l1 → active_length (l1 ++ l2) = length l1 + active_length l2.
Proof.
  induction 1 as [|z l1 Hz _ IH]; [done|].
  simpl. rewrite decide_False by done. by rewrite IH.
Qed.

Lemma active_length_replicate k : active_length (replicate k 0%Z) = 0.
Proof. by destruct k. Qed.

Lemma valid_row_nonzero_prefix cm (l : row) k :
  Forall (λ z, z ≠ 0%Z) l →
  (min_length cm ≤ Z.of_nat (length l) ≤ max_length cm)%Z →
  valid_row cm (l ++ replicate k 0%Z) = true.
Proof.
  intros Hl Hlen. unfold valid_row.
  rewrite active_length_app, active_length_replicate, Nat.add_0_r by done.
  rewrite bool_decide_eq_true_2 by done. simpl.
  rewrite drop_app_length. apply forallb_forall. intros z Hz.
  apply list_elem_of_In, elem_of_replicate in Hz as [-> _].
  by apply bool_decide_eq_true_2.
Qed.

Lemma makeAConfig_valid cm d :
  (0 ≤ min_length cm ≤ max_length cm)%Z →
  (variable_length cm = true → (min_length cm ≤ randChainLen d < max_length cm)%Z) →
  (∀ k, randSymbol d k ≠ 0%Z) →
  valid_row cm (makeAConfig cm d) = true
  ∧ length (makeAConfig cm d) = Z.to_nat (max_length cm).
Proof.
  intros Hmm Hlen Hsym. unfold makeAConfig.
  assert (∀ n, Forall (λ z, z ≠ 0%Z) (map (randSymbol d) (seq 0 n))) as Hnz.
  { intros n. apply Forall_forall. intros z Hz.
    apply list_elem_of_In, in_map_iff in Hz as (k & <- & _). apply Hsym. }
  destruct (variable_length cm).
  - specialize (Hlen eq_refl). rewrite decide_True by lia. split.
    + apply valid_row_nonzero_prefix; [done|].
      rewrite length_map, length_seq. lia.
    + rewrite length_app, length_map, length_seq, length_replicate. lia.
  - split.
    + rewrite <-(app_nil_r (map _ _)). apply (valid_row_nonzero_prefix cm _ 0); [done|].
      rewrite length_map, length_seq. lia.
    + by rewrite length_map, length_seq.
Qed.

Lemma propRow_fixed_valid cm b ind i (r : row) :
  variable_length cm = false →
  get2 0%Z (spinRandints b) i ind ≠ 0%Z →
  Forall (λ z, z ≠ 0%Z) r →
  (min_length cm ≤ Z.of_nat (length r) ≤ max_length cm)%Z →
  valid_row cm (propRow cm b ind i r) = true.
Proof.
  intros Hv Hs Hr Hlen. unfold propRow. rewrite Hv.
  rewrite <-(app_nil_r (<[_ := _]> r)).
  apply (valid_row_nonzero_prefix cm _ 0).
  - by apply Forall_insert.
  - by rewrite length_insert.
Qed.

(** C3 (the code departs from the claim): with variable length, lengths 1
    to 4, the row [1;2;3;0] of active length 3 and the direction draw -1,
    the proposal still has active length 3: the last active slot is not
    zeroed, although 3 is above [min_length]. *)
Theorem C3_shorten_draw_ignored :
  propConfigs cm_var (buf_one 1 0 0 (-1) 1) 1 [[1; 2; 3; 0]]%Z 0 = [[1; 2; 3; 0]]%Z
  ∧ active_length [1; 2; 3; 0]%Z = 3
  ∧ (min_length cm_var < 3)%Z.
Proof. split; [reflexivity|]. split; [reflexivity|]. reflexivity. Qed.

(** The ensemble after iteration 0 of the run with one trajectory of
    variable length: the mutation of position 3 is accepted. *)
Lemma config_after_mutation :
  config start_var = [[1; 2; 0; 0]]%Z
  ∧ config (iterate cm_var model_first true start_var) = [[1; 2; 0; 1]]%Z.
Proof.
  split; [reflexivity|].
  assert (indOf start_var = 0) as Hi by reflexivity.
  assert (proposalOf cm_var start_var = [[1; 2; 0; 1]]%Z) as Hp by reflexivity.
  assert (config start_var = [[1; 2; 0; 0]]%Z) as Hc by reflexivity.
  unfold iterate. cbn [config].
  rewrite acceptStep_config_eq, Hi, Hp, Hc.
  rewrite updateConfigs_config_one.
  unfold accepted. simpl. accept_zero. reflexivity.
Qed.

(** C4 (the code departs from the claim): with variable length and lengths
    1 to 4, the sequence [1;2;0;0] that [makeAConfig] returns for the
    length draw 2 is valid; [propConfigs] mutates position 3 and proposes
    [1;2;0;1], whose zero is not part of a suffix of zeros; the proposal
    is accepted, so after iteration 0 the ensemble holds an invalid
    sequence. *)
Theorem C4_mutation_breaks_padding :
  makeAConfig cm_var {| randChainLen := 2; randSymbol := λ k, Z.of_nat (S k) |}
    = [1; 2; 0; 0]%Z
  ∧ valid_row cm_var [1; 2; 0; 0]%Z = true
  ∧ propConfigs cm_var (buf_one 1 3 0 0 1) 1 [[1; 2; 0; 0]]%Z 0 = [[1; 2; 0; 1]]%Z
  ∧ valid_row cm_var [1; 2; 0; 1]%Z = false
  ∧ config start_var = [[1; 2; 0; 0]]%Z
  ∧ config (iterate cm_var model_first true start_var) = [[1; 2; 0; 1]]%Z.
Proof.
  split; [reflexivity|]. split; [reflexivity|]. split; [reflexivity|].
  split; [reflexivity|]. apply config_after_mutation.
Qed.

(** ** What a rejection leaves alone *)

Lemma seeded_prefix t : allOptimalConfigs t `prefix_of` seeded t.
Proof.
  unfold seeded. case_decide as H; [|done].
  apply nil_length_inv in H. rewrite H. apply prefix_nil.
Qed.

Lemma pool_prefix_saveOptima c p sc en va it ind nb t :
  allOptimalConfigs t `prefix_of` allOptimalConfigs (saveOptima c p sc en va it ind nb t).
Proof.
  rewrite pool_saveOptima. etrans; [apply seeded_prefix|].
  case_match; [|done]. by apply prefix_app_r.
Qed.

Section RejectionFrame.
Context (al : list (list R)) (ind : nat) (ratio : list npfloat) (prop : list row).
Context (sc en va : tworows) (it : Z).

Lemma trajState_saveOptima c j nb t i :
  j ≠ i →
  trajState i (c, saveOptima c prop sc en va it j nb t) = trajState i (c, t).
Proof.
  intros Hne. unfold trajState, saveOptima. simpl.
  destruct nb; simpl.
  - rewrite orb_true_r. simpl.
    by rewrite ?list_lookup_alter_ne, ?list_lookup_insert_ne by done.
  - rewrite orb_false_r. destruct (negb _); simpl;
      by rewrite ?list_lookup_alter_ne by done.
Qed.

Lemma trajState_acceptOne j st i :
  j ≠ i →
  trajState i (acceptOne al ind ratio prop sc en va it j st) = trajState i st.
Proof.
  intros Hne. unfold acceptOne. destruct st as [c t].
  destruct (np_lt_l _ _); [|done].
  assert (trajState i (<[j := prop !!! j]> c, recordAcceptance it j t)
          = trajState i (c, t)) as H0.
  { unfold trajState. simpl.
    by rewrite list_lookup_insert_ne, list_lookup_alter_ne by done. }
  destruct (if bool_decide _ then true else _); [|done].
  rewrite <-H0. by apply trajState_saveOptima.
Qed.

Lemma pool_prefix_acceptOne j st :
  allOptimalConfigs st.2
    `prefix_of` allOptimalConfigs (acceptOne al ind ratio prop sc en va it j st).2.
Proof.
  unfold acceptOne. destruct st as [c t].
  destruct (np_lt_l _ _); [|done].
  destruct (if bool_decide _ then true else _); [|done].
  simpl. apply (pool_prefix_saveOptima _ _ _ _ _ _ _ _ (recordAcceptance it j t)).
Qed.

Lemma deref_acceptOne j st e :
  e ≠ RowOf j →
  deref (acceptOne al ind ratio prop sc en va it j st).1 e = deref st.1 e.
Proof.
  intros He. rewrite acceptOne_config. case_match; [|done].
  destruct e as [k|r]; [|done]. simpl.
  apply list_lookup_total_insert_ne. congruence.
Qed.

(** A rejected trajectory keeps its state through the whole loop; the pool
    only grows at its end; the sequences seen through the rejected
    trajectory's view and through recorded proposal rows stay the same. *)
Lemma updateConfigs_rejected i n st :
  accepted al ind ratio i = false →
  let st' := updateConfigs al ind ratio prop sc en va it n st in
  trajState i st' = trajState i st
  ∧ allOptimalConfigs st.2 `prefix_of` allOptimalConfigs st'.2
  ∧ ∀ e, (e = RowOf i ∨ ∃ r, e = Snap r) → deref st'.1 e = deref st.1 e.
Proof.
  intros Hrej. unfold updateConfigs.
  apply (foldl_invariant _ (λ st',
    trajState i st' = trajState i st
    ∧ allOptimalConfigs st.2 `prefix_of` allOptimalConfigs st'.2
    ∧ ∀ e, (e = RowOf i ∨ ∃ r, e = Snap r) → deref st'.1 e = deref st.1 e));
    [|done].
  intros j st' (Hs & Hp & He).
  destruct (decide (j = i)) as [->|Hne].
  { by rewrite acceptOne_rejected. }
  split; [|split].
  - by rewrite trajState_acceptOne.
  - etrans; [exact Hp|]. apply pool_prefix_acceptOne.
  - intros e Hcase. rewrite deref_acceptOne; [by apply He|].
    destruct Hcase as [->|[r ->]]; congruence.
Qed.
End RejectionFrame.

(** C10: a trajectory whose uniform draw is not below its acceptance ratio
    keeps, through the accept/update step, its current sequence, its best
    score, its lists of recorded optima and its acceptance record; the
    pool before the step is a prefix of the pool after it, and the entries
    that refer to this trajectory's row or to a recorded proposal show the
    same sequences as before. *)
Theorem C10_rejection_frame al ind ratio prop sc en va it (i n : nat)
    (st : list row * Tracker) (r : R) :
  ratio !! i = Some (Fin r) →
  (r <= get2 0%R al i ind)%R →
  let st' := updateConfigs al ind ratio prop sc en va it n st in
  trajState i st' = trajState i st
  ∧ allOptimalConfigs st.2 `prefix_of` allOptimalConfigs st'.2
  ∧ ∀ e, (e = RowOf i ∨ ∃ r, e = Snap r) → deref st'.1 e = deref st.1 e.
Proof.
  intros Hr Hle. apply updateConfigs_rejected.
  unfold accepted. rewrite Hr. simpl. apply bool_decide_eq_false_2. lra.
Qed.

(** ** The rolling acceptance rate *)

(** In a strictly increasing list above [lo], the entry at position [k] is
    at least [lo + 1 + k]. *)
Lemma increasing_lookup_ge (l : list Z) :
  ∀ lo k x, StronglySorted Z.lt l → Forall (λ y, lo < y)%Z l →
    l !! k = Some x → (lo + 1 + Z.of_nat k ≤ x)%Z.
Proof.
  induction l as [|y l IH]; intros lo k x Hs Hlo Hk; [done|].
  apply StronglySorted_inv in Hs as [Hs Hy].
  apply Forall_cons in Hlo as [Hlo _].
  destruct k as [|k]; simpl in Hk.
  - injection Hk as ->. lia.
  - pose proof (IH y k x Hs Hy Hk). lia.
Qed.

Lemma filter_none {A} (P : A → Prop) `{∀ x, Decision (P x)} (l : list A) :
  Forall (λ x, ¬ P x) l → filter P l = [].
Proof.
  induction 1 as [|x l Hx _ IH]; [done|]. by rewrite filter_cons_False.
Qed.

Lemma increasing_NoDup (l : list Z) : StronglySorted Z.lt l → NoDup l.
Proof.
  induction 1 as [|x l _ IH Hx]; [constructor|].
  apply NoDup_cons. split; [|done].
  intros Hin. pose proof (proj1 (Forall_forall _ _) Hx x Hin). lia.
Qed.

(** Of a strictly increasing record bounded by [it], every entry within
    100 of [it] is among the last 100 entries. *)
Lemma filter_lastn_recent (it : Z) (recs : list Z) :
  StronglySorted Z.lt recs → Forall (λ r, r ≤ it)%Z recs →
  filter (λ r, it - r < history)%Z (lastn (Z.to_nat history) recs)
  = filter (λ r, it - r < history)%Z recs.
Proof.
  intros Hs Hle. unfold lastn, history.
  set (n := length recs - Z.to_nat 100).
  rewrite <-(take_drop n recs) at 2. rewrite filter_app.
  assert (filter (λ r, it - r < 100)%Z (take n recs) = []) as ->; [|done].
  rewrite <-(take_drop n recs) in Hs, Hle.
  apply StronglySorted_app in Hs as (Hlt & _ & Hsuf).
  apply Forall_app in Hle as [_ Hle].
  apply filter_none. apply Forall_forall. intros d Hd Hrecent.
  assert (0 < n) as Hn.
  { destruct n; [|lia]. by rewrite take_0 in Hd; apply elem_of_nil in Hd. }
  assert (length (drop n recs) = 100) as Hlen by (rewrite length_drop; lia).
  destruct (lookup_lt_is_Some_2 (drop n recs) 99) as [x Hx]; [lia|].
  assert (d + 1 + Z.of_nat 99 ≤ x)%Z as Hge.
  { apply (increasing_lookup_ge (drop n recs)); [done| |done].
    apply Forall_forall. intros y Hy. by apply Hlt. }
  pose proof (Forall_lookup_1 _ _ _ _ Hle Hx) as Hxle. simpl in Hxle. lia.
Qed.

(** The count computed by [updateAnnealing] is the number of accepted
    iterations among the last 100. *)
Lemma acceptedRecently_window (it : Z) (recs : list Z) :
  StronglySorted Z.lt recs → Forall (λ r, r ≤ it)%Z recs →
  acceptedRecently it recs = accepted_in_window it recs.
Proof.
  intros Hs Hle. unfold acceptedRecently, accepted_in_window.
  rewrite filter_lastn_recent by done.
  apply Permutation_length, NoDup_Permutation.
  - by apply NoDup_filter, increasing_NoDup.
  - apply NoDup_filter, NoDup_seqZ.
  - intros x. rewrite !list_elem_of_filter. unfold window, history.
    rewrite elem_of_seqZ. split.
    + intros [Hx Hin]. split; [done|].
      pose proof (proj1 (Forall_forall _ _) Hle x Hin) as Hxle. simpl in Hxle. lia.
    + intros [Hin Hx]. split; [lia|done].
Qed.

(** ** The annealing controller, one trajectory at a time *)

Section AnnealingFacts.
Context (cm : ConfigMain) (rng : Rng).

Lemma lookup_insert_fmap {A} (l : list A) i x :
  <[i := x]> l !! i = (λ _, x) <$> l !! i.
Proof.
  rewrite list_lookup_insert. case_decide as H.
  - destruct H as [_ H]. apply lookup_lt_is_Some in H as [y ->]. done.
  - destruct (l !! i) eqn:E; [|done].
    apply lookup_lt_Some in E. tauto.
Qed.

Lemma lookup_total_default `{!Inhabited A} (l : list A) i :
  l !!! i = default inhabitant (l !! i).
Proof. apply list_lookup_total_alt. Qed.

Lemma annealOne_view i s :
  annealView i (annealOne cm rng i s) = annealTraj cm rng i (annealView i s).
Proof.
  unfold annealOne, annealView, annealTraj, stagnant, modulated.
  unfold recIndsOf, optimalIndsOf, resetConfig. cbv zeta.
  change (tracker (set_acceptanceRate ?a s)) with (tracker s).
  destruct (decide (_ < target_acceptance_rate)%R) as [Hlt|Hlt]; simpl in *;
    rewrite !lookup_total_default, !lookup_insert_fmap in *; simpl in *.
  all: destruct (decide (iter s - _ > 1000)%Z) as [H1|H1];
    [destruct (decide (iter s - _ > 1000)%Z) as [H2|H2]|]; simpl.
  all: rewrite ?lookup_insert_fmap, ?list_insert_insert_eq, ?lookup_insert_fmap.
  all: rewrite ?(bool_decide_eq_true_2 _ H1), ?(bool_decide_eq_false_2 _ H1),
         ?(bool_decide_eq_true_2 _ H2), ?(bool_decide_eq_false_2 _ H2); simpl.
  all: destruct (temperature s !! i) as [T|]; simpl; [|done].
  all: by rewrite ?(decide_True _ _ Hlt), ?(decide_False _ _ Hlt).
Qed.
End AnnealingFacts.

Section AnnealingLoop.
Context (cm : ConfigMain) (rng : Rng).

Lemma annealOne_frame i j s :
  j ≠ i → annealView i (annealOne cm rng j s) = annealView i s.
Proof.
  intros Hne. unfold annealOne, annealView, resetConfig. cbv zeta.
  repeat case_decide; simpl;
    by rewrite ?list_lookup_insert_ne by done.
Qed.

Lemma annealOne_nruns j s : nruns (annealOne cm rng j s) = nruns s.
Proof.
  unfold annealOne, resetConfig. cbv zeta. by repeat case_decide.
Qed.

(** After the loop, the view of trajectory [i] is what the body for [i]
    makes of the view before the loop. *)
Lemma updateAnnealing_view i s :
  i < nruns s →
  annealView i (updateAnnealing cm rng s) = annealTraj cm rng i (annealView i s).
Proof.
  intros Hi. unfold updateAnnealing.
  rewrite (foldl_seq_local _ (annealView i) i (nruns s) s).
  - rewrite decide_True by done. apply annealOne_view.
  - intros j s' Hj. by apply annealOne_frame.
  - intros s1 s2 H12. by rewrite !annealOne_view, H12.
Qed.

Lemma updateAnnealing_tracker s : tracker (updateAnnealing cm rng s) = tracker s.
Proof.
  unfold updateAnnealing. apply (foldl_preserved _ tracker).
  intros j s'. unfold annealOne, resetConfig. cbv zeta. by repeat case_decide.
Qed.

Lemma updateAnnealing_nruns s : nruns (updateAnnealing cm rng s) = nruns s.
Proof.
  unfold updateAnnealing. apply (foldl_preserved _ nruns).
  intros j s'. apply annealOne_nruns.
Qed.

Lemma length_config_updateAnnealing s :
  length (config (updateAnnealing cm rng s)) = length (config s).
Proof.
  unfold updateAnnealing.
  apply (foldl_invariant _ (λ s', length (config s') = length (config s))); [|done].
  intros j s' H. unfold annealOne, resetConfig. cbv zeta.
  repeat case_decide; simpl; by rewrite ?length_insert.
Qed.
End AnnealingLoop.

Lemma modulated_pos rate T U :
  (0 < T)%R → (0 <= U < 1)%R → (0 < modulated rate T U)%R.
Proof.
  intros HT HU. unfold modulated. case_decide; nra.
Qed.

(** C7: [converge] invokes the controller in the iterations that are
    positive multiples of [deltaIter].  On an invocation, for a trajectory
    [i] whose acceptance record is strictly increasing and bounded by the
    present iteration, the rolling rate becomes the number of accepted
    iterations among the last 100, divided by 100; the temperature [T] is
    multiplied by [1 + U] if that rate is below the target rate and by
    [1 - U] otherwise, [U] being the uniform draw, unless the stagnation
    reset then sets it to [temp0]; in every case the new temperature is
    positive when [T], [temp0] are positive and [0 <= U < 1]. *)
Theorem C7_rate_and_temperature cm model useOracle rng (s : Sampler) (i : nat) (T : R) :
  i < nruns s →
  is_Some (acceptanceRate s !! i) →
  temperature s !! i = Some T →
  (0 < T)%R →
  (0 < temp0 s)%R →
  (0 <= annealU rng (iter s) i < 1)%R →
  StronglySorted Z.lt (recIndsOf s i) →
  Forall (λ r, r ≤ iter s)%Z (recIndsOf s i) →
  let s' := updateAnnealing cm rng s in
  let U := annealU rng (iter s) i in
  let rate := (INR (accepted_in_window (iter s) (recIndsOf s i)) / 100)%R in
  let T1 := if decide (rate < target_acceptance_rate)%R
            then (T * (1 + U))%R else (T * (1 - U))%R in
  acceptanceRate s' !! i = Some rate
  ∧ temperature s' !! i
    = Some (if stagnant (iter s) (resetInd s !!! i) (last_or 0%Z (optimalIndsOf s i))
            then temp0 s else T1)
  ∧ (0 < T1)%R
  ∧ (∃ T', temperature s' !! i = Some T' ∧ (0 < T')%R)
  ∧ (∀ s0 it,
       convergeStep cm model useOracle rng s0 it
       = let s1 := iterate cm model useOracle (set_iter it s0) in
         let s2 := if decide (it mod deltaIter = 0 ∧ it > 0)%Z
                   then updateAnnealing cm rng s1 else s1 in
         if decide (it mod randintsResampleAt = 0)%Z
         then resampleRandints (bufAt rng it) s2 else s2).
Proof.
  intros Hi [a Ha] HT Hpos H0 HU Hs Hb s' U rate T1.
  pose proof (updateAnnealing_view cm rng i s Hi) as Hv.
  unfold annealView, annealTraj in Hv. rewrite Ha, HT in Hv. simpl in Hv.
  fold (recIndsOf s i) in Hv. fold (optimalIndsOf s i) in Hv.
  rewrite (acceptedRecently_window _ _ Hs Hb) in Hv.
  assert (resetInd s !!! i = default 1%Z (resetInd s !! i)) as ->
    by (by rewrite list_lookup_total_alt).
  change (IZR history) with 100%R in Hv.
  fold rate U in Hv. unfold modulated in Hv. fold T1 in Hv.
  assert (0 < T1)%R as HT1 by (apply (modulated_pos rate T U); done).
  fold s' in Hv.
  destruct (stagnant _ _ _); simpl in Hv; injection Hv as Hv1 Hv2 _ _;
    (split; [done|]); (split; [done|]); (split; [done|]); split; try done.
  - by exists (temp0 s).
  - by exists T1.
Qed.

(** ** Post-sample annealing *)

Lemma fmap_const_seq {A} (x : A) j n : (λ _, x) <$> seq j n = replicate n x.
Proof. revert j. induction n as [|n IH]; intros j; simpl; [done|]. by rewrite IH. Qed.

Lemma iterations_S n : iterations (S n) = iterations n ++ [Z.of_nat n].
Proof. unfold iterations. by rewrite seq_S, fmap_app. Qed.

Section PostAnnealing.
Context (cm : ConfigMain) (model : Model) (useOracle : bool) (rng : Rng).

Lemma postSampleAnnealing_annealState initConfigs s :
  postSampleAnnealing cm model useOracle rng initConfigs s
  = annealState cm model useOracle rng initConfigs s (post_annealing_time cm).
Proof. done. Qed.

Lemma annealStep_temperature s it :
  temperature (annealStep cm model useOracle rng s it)
  = (λ T, T * (99 / 100))%R <$> temperature s.
Proof. unfold annealStep. by case_decide. Qed.

Lemma annealStep_STUN s it : STUN (annealStep cm model useOracle rng s it) = STUN s.
Proof. unfold annealStep. by case_decide. Qed.

Lemma annealStep_nruns s it : nruns (annealStep cm model useOracle rng s it) = nruns s.
Proof. unfold annealStep. by case_decide. Qed.

Lemma annealState_S initConfigs s k :
  annealState cm model useOracle rng initConfigs s (S k)
  = annealStep cm model useOracle rng (annealState cm model useOracle rng initConfigs s k) (Z.of_nat k).
Proof. unfold annealState. by rewrite iterations_S, foldl_app. Qed.
End PostAnnealing.

(** C8: [postSampleAnnealing] turns STUN off and starts every trajectory at
    the temperature 0.01; each iteration of its loop multiplies every
    temperature by 0.99 and changes it in no other way, the energy
    difference of each iteration being the raw one; after the
    [post_annealing_time] iterations every temperature is
    [0.01 * 0.99 ^ post_annealing_time]. *)
Theorem C8_geometric_cooling cm model useOracle rng (initConfigs : list row) (s : Sampler) :
  let n := length initConfigs in
  let st := annealState cm model useOracle rng initConfigs s in
  (∀ k, STUN (st k) = 0%Z ∧ nruns (st k) = n
        ∧ F (iterate cm model useOracle (set_iter (Z.of_nat k) (st k))) = None)
  ∧ temperature (st 0) = replicate n (1 / 100)%R
  ∧ (∀ k, temperature (st (S k)) = (λ T, T * (99 / 100))%R <$> temperature (st k))
  ∧ temperature (postSampleAnnealing cm model useOracle rng initConfigs s)
    = replicate n (1 / 100 * (99 / 100) ^ post_annealing_time cm)%R.
Proof.
  intros n st.
  assert (∀ k, STUN (st k) = 0%Z ∧ nruns (st k) = n) as Hk.
  { induction k as [|k [IH1 IH2]]; [done|].
    subst st. simpl. rewrite annealState_S, annealStep_STUN, annealStep_nruns. done. }
  assert (temperature (st 0) = replicate n (1 / 100)%R) as H0.
  { subst st. unfold annealState, annealStart. simpl. apply fmap_const_seq. }
  assert (∀ k, temperature (st (S k))
               = (λ T, T * (99 / 100))%R <$> temperature (st k)) as HS.
  { intros k. subst st. simpl. by rewrite annealState_S, annealStep_temperature. }
  split; [|split; [done|split; [done|]]].
  - intros k. destruct (Hk k) as [H1 H2]. split; [done|]. split; [done|].
    simpl. unfold deOf, getDE. simpl. rewrite H1. done.
  - rewrite postSampleAnnealing_annealState. fold (st (post_annealing_time cm)).
    induction (post_annealing_time cm) as [|k IH].
    + rewrite H0. f_equal. simpl. lra.
    + rewrite HS, IH, fmap_replicate. f_equal. simpl. lra.
Qed.

(** ** Which proposals are recorded in a run

    In a run started from a new sampler the pool always holds, for every
    trajectory, the view of its row of [config]: [initOptima] puts that
    view into the trajectory's list of samples and the first call of
    [saveOptima] seeds the pool with those lists.  When [saveOptima] runs
    for trajectory [ind], [updateConfigs] has just written the proposal
    into row [ind], so the view of that row shows the proposal and the
    pool is found to hold a copy.  A proposal is therefore recorded only
    when it is a new best. *)

Lemma foldl_seq_ind {St} (step : St → nat → St) (P : nat → St → Prop) (n : nat) (s : St) :
  P 0 s → (∀ k s, k < n → P k s → P (S k) (step s k)) →
  P n (foldl step s (seq 0 n)).
Proof.
  intros H0 HS. induction n as [|n IH]; [done|].
  rewrite seq_S, foldl_app. simpl. apply HS; [lia|].
  apply IH. intros k s' Hk. apply HS. lia.
Qed.

Lemma TrInv_initOptima n sc en va : TrInv n (initOptima n sc en va).
Proof.
  unfold TrInv, initOptima. simpl.
  rewrite !length_fmap, !length_seq. repeat split; try done.
  intros i Hi. exists [RowOf i]. split.
  - by rewrite list_lookup_fmap, lookup_seq_lt.
  - by apply list_elem_of_singleton.
Qed.

Lemma seeded_has_view n t i : TrInv n t → i < n → RowOf i ∈ seeded t.
Proof.
  intros (_ & _ & _ & _ & Hs & Hp) Hi. unfold seeded. case_decide as He.
  - apply nil_length_inv in He. rewrite He. simpl.
    destruct (Hs i Hi) as (l & Hl & Hin).
    apply list_elem_of_In, in_concat. exists l. split.
    + apply list_elem_of_In. by eapply list_elem_of_lookup_2.
    + by apply list_elem_of_In.
  - apply Hp; [|done]. intros Hnil. by rewrite Hnil in He.
Qed.

Lemma seeded_nonempty n t : TrInv n t → 0 < n → seeded t ≠ [].
Proof.
  intros Ht Hn Hnil. pose proof (seeded_has_view n t 0 Ht Hn) as H.
  rewrite Hnil in H. by apply elem_of_nil in H.
Qed.

Section RecordedOnlyIfNewBest.
Context (prop : list row) (sc en va : tworows) (it : Z) (n : nat).

(** With the proposal already written into row [ind], a call that is not
    for a new best records nothing, and a call for a new best appends to
    the scores and to the iterations of trajectory [ind]. *)
Lemma saveOptima_lists c ind nb t :
  TrInv n t → ind < n → c !! ind = Some (prop !!! ind) →
  let t' := saveOptima c prop sc en va it ind nb t in
  optima t' = (if nb then alter (λ l, l ++ [sc.1 !!! ind]) ind (optima t) else optima t)
  ∧ optimalInds t'
    = (if nb then alter (λ l, l ++ [it]) ind (optimalInds t) else optimalInds t)
  ∧ TrInv n t'.
Proof.
  intros Ht Hi Hc t'.
  assert (has_copy c (seeded t) (prop !!! ind) = true) as Hcopy.
  { apply (has_copy_elem _ _ _ (RowOf ind)); [by eapply seeded_has_view|].
    simpl. by apply list_lookup_total_correct. }
  pose proof (seeded_has_view n t) as Hview.
  destruct Ht as (H1 & H2 & H3 & H4 & H5 & H6).
  subst t'. unfold saveOptima. fold (seeded t).
  fold (has_copy c (seeded t) (prop !!! ind)). rewrite Hcopy.
  destruct nb; simpl.
  - split; [done|]. split; [done|].
    unfold TrInv. simpl. rewrite !length_alter. repeat split; try done.
    + intros i Hlt. destruct (H5 i Hlt) as (l & Hl & Hin).
      destruct (decide (ind = i)) as [->|Hne].
      * exists (l ++ [Snap (prop !!! i)]). rewrite list_lookup_alter_eq, Hl.
        split; [done|]. apply elem_of_app. by left.
      * exists l. by rewrite list_lookup_alter_ne.
    + intros _ i Hlt. apply elem_of_app. left.
      apply Hview; [|done]. by repeat split.
  - split; [done|]. split; [done|].
    unfold TrInv. simpl. repeat split; try done.
    intros _ i Hlt. apply Hview; [|done]. by repeat split.
Qed.

Lemma TrInv_recordAcceptance i t : TrInv n t → TrInv n (recordAcceptance it i t).
Proof.
  intros (H1 & H2 & H3 & H4 & H5 & H6). unfold TrInv. simpl.
  rewrite length_alter. by repeat split.
Qed.
End RecordedOnlyIfNewBest.

Section RecordingStep.
Context (al : list (list R)) (ind : nat) (ratio : list npfloat) (prop : list row).
Context (sc en va : tworows) (it : Z) (n : nat).

Lemma acceptOne_step j c t :
  length c = n → TrInv n t → j < n →
  let st' := acceptOne al ind ratio prop sc en va it j (c, t) in
  length st'.1 = n ∧ TrInv n st'.2 ∧ stepRel it j t st'.2
  ∧ ∀ i, i ≠ j → optima st'.2 !! i = optima t !! i
                 ∧ optimalInds st'.2 !! i = optimalInds t !! i.
Proof.
  intros Hc Ht Hj. unfold acceptOne.
  destruct (np_lt_l _ _); [|by split; [|split; [|split; [left|]]]].
  set (c' := <[j := prop !!! j]> c). set (t' := recordAcceptance it j t).
  assert (length c' = n) as Hc' by (subst c'; by rewrite length_insert).
  assert (TrInv n t') as Ht' by by apply TrInv_recordAcceptance.
  destruct (if bool_decide _ then true else _); cbn [fst snd];
    [|by split; [|split; [|split; [left|]]]].
  assert (c' !! j = Some (prop !!! j)) as Hrow.
  { subst c'. apply list_lookup_insert_eq. lia. }
  destruct (saveOptima_lists prop sc en va it n c' j
              (bool_decide (sc.1 !!! j < E0 t' !!! j)%R) t' Ht' Hj Hrow)
    as (Ho & Hi & Hinv).
  split; [done|]. split; [done|]. unfold stepRel. rewrite Ho, Hi.
  destruct (bool_decide _).
  - split.
    + right. eexists. by rewrite !list_lookup_alter_eq.
    + intros i Hne. by rewrite !list_lookup_alter_ne.
  - split; [by left|done].
Qed.

Lemma updateConfigs_step c t :
  length c = n → TrInv n t →
  let st' := updateConfigs al ind ratio prop sc en va it n (c, t) in
  length st'.1 = n ∧ TrInv n st'.2 ∧ ∀ i, i < n → stepRel it i t st'.2.
Proof.
  intros Hc Ht. unfold updateConfigs.
  pose (P := λ (k : nat) (st : list row * Tracker),
    length st.1 = n ∧ TrInv n st.2
    ∧ ∀ i, (i < k → stepRel it i t st.2)
           ∧ (k ≤ i → optima st.2 !! i = optima t !! i
                      ∧ optimalInds st.2 !! i = optimalInds t !! i)).
  assert (P n (foldl (λ st i, acceptOne al ind ratio prop sc en va it i st)
                 (c, t) (seq 0 n))) as (H1 & H2 & H3).
  { apply foldl_seq_ind.
    - split; [done|]. split; [done|]. intros i. split; [lia|done].
    - intros k [ck tk] Hk (Hck & Htk & Hrel). cbn [fst snd] in *.
      destruct (acceptOne_step k ck tk Hck Htk Hk) as (Ha & Hb & Hd & He).
      split; [done|]. split; [done|]. intros i.
      destruct (decide (i = k)) as [->|Hne].
      + split; [|lia]. intros _.
        destruct (Hrel k) as [_ Hsame]. destruct (Hsame (le_n k)) as [Ho Hi].
        unfold stepRel in *. by rewrite <-Ho, <-Hi.
      + destruct (He i Hne) as [Ho Hi]. destruct (Hrel i) as [Hlt Hge]. split.
        * intros Hik. unfold stepRel in *. rewrite Ho, Hi. apply Hlt. lia.
        * intros Hik. rewrite Ho, Hi. apply Hge. lia. }
  split; [done|]. split; [done|]. intros i Hi. by apply H3.
Qed.
End RecordingStep.

(** ** The shared minimum

    [absMin] is the least of the best scores [E0] of the trajectories:
    [initOptima] sets it so, and every accept/update step keeps it so. *)

Lemma foldl_Rmin_spec (l : list R) :
  ∀ x, (foldl Rmin x l <= x)%R
       ∧ Forall (λ e, foldl Rmin x l <= e)%R l
       ∧ (foldl Rmin x l = x ∨ foldl Rmin x l ∈ l).
Proof.
  induction l as [|y l IH]; intros x; simpl.
  - split; [lra|]. split; [constructor|by left].
  - destruct (IH (Rmin x y)) as (H1 & H2 & H3).
    pose proof (Rmin_l x y). pose proof (Rmin_r x y).
    split; [lra|]. split.
    + constructor; [lra|done].
    + destruct H3 as [H3|H3].
      * rewrite H3. unfold Rmin. destruct (Rle_dec x y); [by left|].
        right. by left.
      * right. by right.
Qed.

Lemma AbsMinInv_initOptima n sc en va : AbsMinInv (initOptima n sc en va).
Proof.
  unfold AbsMinInv, initOptima. simpl. destruct (sc.2) as [|x l]; simpl.
  - split; [constructor|done].
  - destruct (foldl_Rmin_spec l x) as (H1 & H2 & H3). split.
    + by constructor.
    + intros _. destruct H3 as [->|H3]; [by left|by right].
Qed.

Lemma AbsMinInv_saveOptima c p sc en va it ind nb t :
  AbsMinInv t → ind < length (E0 t) →
  (nb = true → (sc.1 !!! ind < E0 t !!! ind)%R) →
  AbsMinInv (saveOptima c p sc en va it ind nb t)
  ∧ length (E0 (saveOptima c p sc en va it ind nb t)) = length (E0 t).
Proof.
  intros [Hle Hin] Hi Hnb. unfold saveOptima, AbsMinInv.
  destruct nb; simpl.
  2:{ rewrite orb_false_r. by destruct (negb _). }
  rewrite orb_true_r. simpl. specialize (Hnb eq_refl).
  rewrite length_insert. split; [|done].
  rewrite list_lookup_total_insert_eq by done.
  set (s := sc.1 !!! ind) in *.
  destruct (decide (s < absMin t)%R) as [Hlt|Hge].
  - split.
    + apply Forall_insert; [|lra].
      eapply Forall_impl; [exact Hle|]. intros e He. simpl in *. lra.
    + intros _. eapply list_elem_of_lookup_2. by apply list_lookup_insert_eq.
  - split.
    + apply Forall_insert; [done|lra].
    + intros _.
      assert (E0 t ≠ []) as Hne by (intros Hnil; rewrite Hnil in Hi; simpl in Hi; lia).
      apply list_elem_of_lookup_1 in Hin as [j Hj]; [|done].
      destruct (decide (j = ind)) as [->|Hjne].
      * rewrite (list_lookup_total_correct _ _ _ Hj) in Hnb. lra.
      * eapply list_elem_of_lookup_2. by rewrite list_lookup_insert_ne.
Qed.

Lemma AbsMinInv_updateConfigs al ind ratio prop sc en va it n c t :
  AbsMinInv t → n ≤ length (E0 t) →
  AbsMinInv (updateConfigs al ind ratio prop sc en va it n (c, t)).2.
Proof.
  intros Ht Hn. unfold updateConfigs.
  pose (P := λ (k : nat) (st : list row * Tracker),
    AbsMinInv st.2 ∧ length (E0 st.2) = length (E0 t)).
  assert (P n (foldl (λ st i, acceptOne al ind ratio prop sc en va it i st)
                 (c, t) (seq 0 n))) as [H _]; [|done].
  apply foldl_seq_ind; [done|].
  intros k [ck tk] Hk [Hinv Hlen]. unfold P, acceptOne. cbn [fst snd] in *.
  destruct (np_lt_l _ _); [|done].
  assert (AbsMinInv (recordAcceptance it k tk)) as Hinv' by done.
  assert (k < length (E0 (recordAcceptance it k tk))) as Hk' by (simpl; lia).
  destruct (bool_decide (sc.1 !!! k < E0 (recordAcceptance it k tk) !!! k)%R) eqn:Hb.
  - cbn [snd]. rewrite <-Hlen.
    apply (AbsMinInv_saveOptima _ _ _ _ _ _ _ _ _ Hinv' Hk').
    intros _. by apply bool_decide_eq_true_1 in Hb.
  - destruct (nearOldBest _ _); [|done].
    cbn [snd]. rewrite <-Hlen.
    by apply (AbsMinInv_saveOptima _ _ _ _ _ _ _ _ _ Hinv' Hk').
Qed.

(** ** A run of [converge] on a new sampler *)

Lemma last_or_snoc {A} (d x : A) l : last_or d (l ++ [x]) = x.
Proof. unfold last_or. by rewrite last_snoc. Qed.

Section ConvergeRun.
Context (cm : ConfigMain) (model : Model) (useOracle : bool) (rng : Rng).
Context (scoreFunction0 : R * R) (gammas0 : list R).

Abbreviation runStart' := (runStart cm rng scoreFunction0 gammas0).
Abbreviation runState' := (runState cm model useOracle rng scoreFunction0 gammas0).
Abbreviation midState' := (midState cm model useOracle rng scoreFunction0 gammas0).
Abbreviation lastRecorded' := (lastRecorded cm model useOracle rng scoreFunction0 gammas0).
Abbreviation InvRun' := (InvRun gammas0).

Lemma converge_runState nIters :
  converge cm model useOracle rng nIters (new_Sampler cm rng scoreFunction0 gammas0)
  = runState' (match nIters with None => sampling_time cm | Some n => n end).
Proof. done. Qed.

Lemma runState_S n :
  runState' (S n)
  = let s2 := if decide (Z.of_nat n mod deltaIter = 0 ∧ Z.of_nat n > 0)%Z
              then updateAnnealing cm rng (midState' n) else midState' n in
    if decide (Z.of_nat n mod randintsResampleAt = 0)%Z
    then resampleRandints (bufAt rng (Z.of_nat n)) s2 else s2.
Proof. unfold runState. by rewrite iterations_S, foldl_app. Qed.

Lemma InvRun_runStart : InvRun' runStart'.
Proof.
  unfold InvRun, runStart, getInitConfig. simpl.
  unfold getInitConfig. rewrite !length_fmap, !length_seq. by repeat split.
Qed.

Lemma TrInv_trackerOf s : InvRun' s → TrInv (length gammas0) (trackerOf cm model useOracle s).
Proof.
  intros (Hn & _ & _ & _ & _ & Ht). unfold trackerOf.
  destruct (tracker s) as [t|]; [by apply Ht|].
  rewrite Hn. apply TrInv_initOptima.
Qed.

Lemma InvRun_iterate s :
  InvRun' s →
  InvRun' (iterate cm model useOracle s)
  ∧ ∀ i, i < length gammas0 →
      stepRel (iter s) i (trackerOf cm model useOracle s)
        (acceptStep cm model useOracle s).2.
Proof.
  intros Hs. pose proof (TrInv_trackerOf s Hs) as Ht.
  destruct Hs as (Hn & Hc & HT & Hr & H0 & _).
  rewrite <-Hn in Hc, Ht.
  destruct (updateConfigs_step (alphaRandoms (buf s)) (indOf s)
              (ratioOf cm model useOracle s) (proposalOf cm s)
              (scoresOf cm model useOracle s).1.1 (scoresOf cm model useOracle s).1.2
              (scoresOf cm model useOracle s).2 (iter s) (nruns s)
              (config s) (trackerOf cm model useOracle s) Hc Ht) as (H1 & H2 & H3).
  fold (acceptStep cm model useOracle s) in H1, H2, H3.
  rewrite Hn in H1, H2, H3.
  split; [|done].
  unfold InvRun. simpl.
  split; [done|]. split; [done|]. split; [done|]. split; [done|]. split; [done|].
  intros ? [= <-]. done.
Qed.

Lemma InvRun_set_iter it s : InvRun' s → InvRun' (set_iter it s).
Proof. done. Qed.

Lemma InvRun_resample b s : InvRun' s → InvRun' (resampleRandints b s).
Proof. done. Qed.

Lemma length_temperature_updateAnnealing s :
  length (temperature (updateAnnealing cm rng s)) = length (temperature s)
  ∧ length (resetInd (updateAnnealing cm rng s)) = length (resetInd s)
  ∧ temp0 (updateAnnealing cm rng s) = temp0 s.
Proof.
  unfold updateAnnealing.
  apply (foldl_invariant _ (λ s',
    length (temperature s') = length (temperature s)
    ∧ length (resetInd s') = length (resetInd s) ∧ temp0 s' = temp0 s)); [|done].
  intros j s' (H1 & H2 & H3). unfold annealOne, resetConfig. cbv zeta.
  repeat case_decide; simpl; by rewrite ?length_insert.
Qed.

Lemma InvRun_updateAnnealing s : InvRun' s → InvRun' (updateAnnealing cm rng s).
Proof.
  intros (Hn & Hc & HT & Hr & H0 & Ht). unfold InvRun.
  destruct (length_temperature_updateAnnealing s) as (H1 & H2 & H3).
  rewrite updateAnnealing_nruns, length_config_updateAnnealing,
    updateAnnealing_tracker, H1, H2, H3. by split_and!.
Qed.

Lemma InvRun_runState n : InvRun' (runState' n) ∧ InvRun' (midState' n).
Proof.
  induction n as [|n [IH1 IH2]].
  - split; [apply InvRun_runStart|].
    apply InvRun_iterate, InvRun_set_iter, InvRun_runStart.
  - assert (InvRun' (runState' (S n))) as H.
    { rewrite runState_S. cbv zeta.
      repeat case_decide;
        auto using InvRun_resample, InvRun_updateAnnealing. }
    split; [done|]. by apply InvRun_iterate, InvRun_set_iter.
Qed.

Lemma tracker_runState_S n : tracker (runState' (S n)) = tracker (midState' n).
Proof.
  rewrite runState_S. cbv zeta.
  repeat case_decide; simpl; by rewrite ?updateAnnealing_tracker.
Qed.

Lemma iter_midState n : iter (midState' n) = Z.of_nat n.
Proof. done. Qed.

(** In the run, the last entry of [optimalInds[i]] is the last iteration in
    which a sequence was recorded for trajectory [i]. *)
Lemma last_optimalInds_lastRecorded n i :
  i < length gammas0 →
  last_or 0%Z (optimalIndsOf (midState' n) i) = lastRecorded' n i.
Proof.
  intros Hi. induction n as [|n IH].
  - simpl lastRecorded.
    destruct (InvRun_iterate (set_iter 0 runStart')
                (InvRun_set_iter _ _ InvRun_runStart)) as [_ Hrel].
    specialize (Hrel i Hi). unfold optimalIndsOf, midState.
    change (runState' 0) with runStart'. change (Z.of_nat 0) with 0%Z.
    cbn [tracker iterate mbind option_bind].
    assert (optimalInds (trackerOf cm model useOracle (set_iter 0 runStart')) !! i
            = Some [0%Z]) as H0.
    { unfold trackerOf. simpl. by rewrite list_lookup_fmap, lookup_seq_lt. }
    destruct Hrel as [[_ Hrel]|(x & _ & Hrel)]; rewrite Hrel, H0; done.
  - destruct (InvRun_runState (S n)) as [HS _].
    destruct (InvRun_iterate (set_iter (Z.of_nat (S n)) (runState' (S n)))
                (InvRun_set_iter _ _ HS)) as [_ Hrel].
    specialize (Hrel i Hi).
    destruct (InvRun_runState n) as [_ (_ & _ & _ & _ & _ & Hmid)].
    destruct (tracker (midState' n)) as [tn|] eqn:Htn; [|done].
    destruct (Hmid tn eq_refl) as (Hlo & Hli & _).
    destruct (lookup_lt_is_Some_2 (optima tn) i) as [lo Hlo']; [lia|].
    destruct (lookup_lt_is_Some_2 (optimalInds tn) i) as [li Hli']; [lia|].
    assert (trackerOf cm model useOracle (set_iter (Z.of_nat (S n)) (runState' (S n)))
            = tn) as Htr.
    { unfold trackerOf. simpl tracker. by rewrite tracker_runState_S, Htn. }
    rewrite Htr in Hrel.
    assert (optimaOf (runState' (S n)) i = lo) as Hbefore.
    { unfold optimaOf. rewrite tracker_runState_S, Htn. simpl. by rewrite Hlo'. }
    assert (last_or 0%Z li = lastRecorded' n i) as Hlast.
    { rewrite <-IH. unfold optimalIndsOf. rewrite Htn. simpl. by rewrite Hli'. }
    simpl lastRecorded. unfold recordedAt. rewrite Hbefore.
    unfold optimalIndsOf, optimaOf, midState.
    cbn [tracker iterate mbind option_bind].
    simpl iter in Hrel.
    destruct Hrel as [[Ho Hx]|(x & Ho & Hx)]; rewrite Ho, Hx, Hlo', Hli'; simpl.
    + rewrite bool_decide_eq_false_2 by lia. done.
    + rewrite length_app. simpl.
      rewrite bool_decide_eq_true_2 by lia. by rewrite last_or_snoc.
Qed.
(** The acceptance record after [iterate]. *)
Lemma recIndsOf_iterate s i :
  i < nruns s →
  (∀ t, tracker s = Some t → length (recInds t) = nruns s) →
  recIndsOf (iterate cm model useOracle s) i
  = if accepted (alphaRandoms (buf s)) (indOf s) (ratioOf cm model useOracle s) i
    then recIndsOf s i ++ [iter s] else recIndsOf s i.
Proof.
  intros Hi Hrec. unfold recIndsOf at 1. cbn [tracker iterate mbind option_bind].
  unfold acceptStep. rewrite updateConfigs_recInds by done. cbn [snd].
  rewrite (recInds_trackerOf cm model useOracle s i Hi Hrec).
  by destruct (accepted _ _ _ _).
Qed.

(** In the run the acceptance record of a trajectory is strictly
    increasing and bounded by the present iteration: what the rolling
    acceptance rate needs. *)
Lemma recInds_increasing_in_run n i :
  i < length gammas0 →
  StronglySorted Z.lt (recIndsOf (midState' n) i)
  ∧ Forall (λ r, r ≤ Z.of_nat n)%Z (recIndsOf (midState' n) i).
Proof.
  intros Hi.
  assert (∀ k, i < nruns (set_iter (Z.of_nat k) (runState' k))
             ∧ ∀ t, tracker (set_iter (Z.of_nat k) (runState' k)) = Some t
                    → length (recInds t) = nruns (set_iter (Z.of_nat k) (runState' k)))
    as Hwf.
  { intros k. destruct (InvRun_runState k) as [(Hn & _ & _ & _ & _ & Ht) _].
    split; [simpl; lia|]. intros t Htr. simpl in *.
    destruct (Ht t Htr) as (_ & _ & _ & Hr & _). lia. }
  induction n as [|n [IH1 IH2]].
  - unfold midState. destruct (Hwf 0) as [H1 H2].
    rewrite (recIndsOf_iterate _ i H1 H2).
    assert (recIndsOf (set_iter (Z.of_nat 0) (runState' 0)) i = []) as -> by done.
    destruct (accepted _ _ _ _); simpl.
    + split; [repeat constructor|]. by apply Forall_singleton.
    + split; constructor.
  - unfold midState. destruct (Hwf (S n)) as [H1 H2].
    rewrite (recIndsOf_iterate _ i H1 H2).
    assert (recIndsOf (set_iter (Z.of_nat (S n)) (runState' (S n))) i
            = recIndsOf (midState' n) i) as ->.
    { unfold recIndsOf. simpl tracker. by rewrite tracker_runState_S. }
    destruct (accepted _ _ _ _).
    + split.
      * apply StronglySorted_app_2; [|done|repeat constructor].
        intros x y Hx Hy. apply list_elem_of_singleton in Hy as ->. simpl.
        pose proof (proj1 (Forall_forall _ _) IH2 x Hx) as Hle. simpl in Hle. lia.
      * apply Forall_app. split; [|apply Forall_singleton; simpl; lia].
        eapply Forall_impl; [exact IH2|]. intros x Hx. simpl in *. lia.
    + split; [done|]. eapply Forall_impl; [exact IH2|]. intros x Hx. simpl in *. lia.
Qed.

(** In the run every temperature stays positive, when the uniform draws
    of the controller lie in [0,1). *)
Lemma temperature_positive_in_run n :
  (∀ it i, 0 <= annealU rng it i < 1)%R →
  Forall (λ T, 0 < T)%R (temperature (runState' n))
  ∧ Forall (λ T, 0 < T)%R (temperature (midState' n)).
Proof.
  intros HU.
  assert (∀ s, InvRun' s → Forall (λ T, 0 < T)%R (temperature s) →
               Forall (λ T, 0 < T)%R (temperature (updateAnnealing cm rng s))) as Hann.
  { intros s Hs Hpos. destruct Hs as (Hn & _ & HT & _ & H0 & _).
    apply Forall_lookup. intros i T' HT'.
    assert (i < nruns s) as Hi.
    { apply lookup_lt_Some in HT'.
      destruct (length_temperature_updateAnnealing s) as [Hl _]. lia. }
    pose proof (updateAnnealing_view cm rng i s Hi) as Hv.
    unfold annealView, annealTraj in Hv.
    destruct (lookup_lt_is_Some_2 (temperature s) i) as [T HTi]; [lia|].
    rewrite HTi, HT' in Hv.
    pose proof (Forall_lookup_1 _ _ _ _ Hpos HTi) as HTpos. simpl in HTpos.
    destruct (stagnant _ _ _); injection Hv as _ Hv _ _; subst T';
      [lra|by apply modulated_pos]. }
  induction n as [|n [IH1 IH2]].
  - assert (Forall (λ T, 0 < T)%R (temperature (runState' 0))) as H.
    { simpl. rewrite fmap_const_seq. apply Forall_replicate. lra. }
    split; done.
  - assert (Forall (λ T, 0 < T)%R (temperature (runState' (S n)))) as H.
    { rewrite runState_S. cbv zeta. destruct (InvRun_runState n) as [_ Hm].
      repeat case_decide; simpl; auto. }
    split; done.
Qed.
End ConvergeRun.

(** C6: in a run of [converge] on a new sampler, when the controller is
    invoked in iteration [n], it resets exactly the trajectories for which
    more than 1000 iterations have passed both since the recorded reset
    iteration and since the last iteration in which a sequence was
    recorded for the trajectory: such a trajectory gets a newly drawn
    sequence, the temperature [temp0] and the present iteration as its
    reset iteration; any other trajectory keeps its sequence and its reset
    iteration. *)
Theorem C6_stagnation_reset cm model useOracle rng scoreFunction0 gammas0 (n i : nat) :
  i < length gammas0 →
  let s := midState cm model useOracle rng scoreFunction0 gammas0 n in
  let s' := updateAnnealing cm rng s in
  let it := Z.of_nat n in
  let lastReset := resetInd s !!! i in
  let lastRec := lastRecorded cm model useOracle rng scoreFunction0 gammas0 n i in
  iter s = it
  ∧ (if bool_decide (it - lastReset > 1000)%Z && bool_decide (it - lastRec > 1000)%Z
     then config s' !! i = Some (makeAConfig cm (resetDraw rng it i))
          ∧ temperature s' !! i = Some (temp0 s)
          ∧ temp0 s = (1 / 10)%R
          ∧ resetInd s' !! i = Some it
     else config s' !! i = config s !! i
          ∧ resetInd s' !! i = resetInd s !! i).
Proof.
  intros Hi s s' it lastReset lastRec. split; [done|].
  destruct (InvRun_runState cm model useOracle rng scoreFunction0 gammas0 n)
    as [_ (Hn & Hc & HT & Hr & H0 & _)].
  fold s in Hn, Hc, HT, Hr, H0.
  assert (i < nruns s) as Hi' by lia.
  pose proof (updateAnnealing_view cm rng i s Hi') as Hv. fold s' in Hv.
  unfold annealView, annealTraj in Hv.
  destruct (lookup_lt_is_Some_2 (config s) i) as [c Hci]; [lia|].
  destruct (lookup_lt_is_Some_2 (temperature s) i) as [T HTi]; [lia|].
  destruct (lookup_lt_is_Some_2 (resetInd s) i) as [r Hri]; [lia|].
  rewrite Hci, HTi, Hri in Hv.
  fold (optimalIndsOf s i) in Hv.
  subst s. rewrite last_optimalInds_lastRecorded in Hv by done.
  fold lastRec in Hv.
  set (s := midState cm model useOracle rng scoreFunction0 gammas0 n) in *.
  assert (lastReset = r) as ->.
  { subst lastReset. by apply list_lookup_total_correct. }
  change (iter s) with it in Hv. unfold stagnant in Hv. simpl default in Hv.
  destruct (bool_decide (it - r > 1000)%Z && bool_decide (it - lastRec > 1000)%Z);
    destruct (acceptanceRate s !! i); simpl in Hv;
    injection Hv as _ Hv2 Hv3 Hv4; rewrite ?Hv2, ?Hv3, ?Hv4, ?Hci, ?Hri; done.
Qed.

(** ** The relative-improvement test *)







(** * Instances on concrete inputs *)

Lemma C1_metropolis_acceptance_witness :
  let s' := iterate cm_fix model_first true start_two in
  acceptanceRatio s' !! 0 = Some (Fin (Rmin 1 (exp (- de_two / (1 / 10)))))
  ∧ (0 <= Rmin 1 (exp (- de_two / (1 / 10))) <= 1)%R.
Proof.
  destruct (C1_metropolis_acceptance cm_fix model_first true start_two 0
              (1 / 10)%R de_two) as (H1 & H2 & _).
  - simpl. lia.
  - reflexivity.
  - intros t Ht. discriminate Ht.
  - reflexivity.
  - lra.
  - reflexivity.
  - split; [exact H1|exact H2].
Defined.

Lemma C6_stagnation_reset_witness :
  iter (midState cm_fix model_first true rng_two (1%R, 0%R) [1%R; 1%R] 0) = 0%Z.
Proof.
  destruct (C6_stagnation_reset cm_fix model_first true rng_two (1%R, 0%R)
              [1%R; 1%R] 0 0) as [H _].
  - simpl. lia.
  - exact H.
Defined.

Lemma C7_rate_and_temperature_witness :
  acceptanceRate (updateAnnealing cm_fix rng_two anneal_example) !! 0
  = Some (INR (accepted_in_window 10 [3; 5; 10]%Z) / 100)%R
  ∧ ∃ T', temperature (updateAnnealing cm_fix rng_two anneal_example) !! 0 = Some T'
          ∧ (0 < T')%R.
Proof.
  destruct (C7_rate_and_temperature cm_fix model_first true rng_two anneal_example 0
              (1 / 10)%R) as (H1 & _ & _ & H2 & _).
  - simpl. lia.
  - exists 0%R. reflexivity.
  - reflexivity.
  - lra.
  - simpl. lra.
  - simpl. lra.
  - apply (bool_decide_unpack _). vm_compute. exact I.
  - apply (bool_decide_unpack _). vm_compute. exact I.
  - split; [exact H1|exact H2].
Defined.

Lemma C10_rejection_frame_witness :
  trajState 0
    (updateConfigs [[1%R]] 0 [Fin 0] [[1; 2]%Z] ([1%R], [2%R]) ([1%R], [2%R])
       ([0%R], [0%R]) 0 1
       ([[2; 2]%Z], initOptima 1 ([1%R], [2%R]) ([1%R], [2%R]) ([0%R], [0%R])))
  = trajState 0
      ([[2; 2]%Z], initOptima 1 ([1%R], [2%R]) ([1%R], [2%R]) ([0%R], [0%R])).
Proof.
  destruct (C10_rejection_frame [[1%R]] 0 [Fin 0] [[1; 2]%Z] ([1%R], [2%R])
              ([1%R], [2%R]) ([0%R], [0%R]) 0 0 1
              ([[2; 2]%Z], initOptima 1 ([1%R], [2%R]) ([1%R], [2%R]) ([0%R], [0%R]))
              0%R) as [H _].
  - reflexivity.
  - unfold get2. simpl. lra.
  - exact H.
Defined.

(** * Further properties of the code *)

(** ** Generation of sequences *)

(** [makeAConfig] returns a row of [max_length] symbols, taken from the
    draws, followed by zeros.  With variable length the number of symbols
    is the drawn length, which [randint] takes below [max_length]: a new
    sequence never has the full length. *)
Theorem makeAConfig_shape cm d :
  (0 ≤ min_length cm ≤ max_length cm)%Z →
  (variable_length cm = true → (min_length cm ≤ randChainLen d < max_length cm)%Z) →
  (∀ k, 1 ≤ randSymbol d k ≤ dict_size cm)%Z →
  let r := makeAConfig cm d in
  let n := if variable_length cm then Z.to_nat (randChainLen d)
           else Z.to_nat (max_length cm) in
  length r = Z.to_nat (max_length cm)
  ∧ r = map (randSymbol d) (seq 0 n) ++ replicate (Z.to_nat (max_length cm) - n) 0%Z
  ∧ active_length r = n
  ∧ valid_row cm r = true
  ∧ Forall (λ z, 0 ≤ z ≤ dict_size cm)%Z r.
Proof.
  intros Hmm Hlen Hsym r n.
  assert (∀ k, randSymbol d k ≠ 0%Z) as Hnz by (intros k; specialize (Hsym k); lia).
  destruct (makeAConfig_valid cm d Hmm Hlen Hnz) as [Hv Hl].
  assert (r = map (randSymbol d) (seq 0 n) ++ replicate (Z.to_nat (max_length cm) - n) 0%Z)
    as Hr.
  { subst r n. unfold makeAConfig. destruct (variable_length cm).
    - specialize (Hlen eq_refl). rewrite decide_True by lia. do 2 f_equal. lia.
    - by rewrite Nat.sub_diag, app_nil_r. }
  split; [done|]. split; [done|]. split; [|split; [done|]].
  - rewrite Hr, active_length_app, active_length_replicate, length_map, length_seq.
    + lia.
    + apply Forall_forall. intros z Hz.
      apply list_elem_of_In, in_map_iff in Hz as (k & <- & _). apply Hnz.
  - rewrite Hr. apply Forall_app. split.
    + apply Forall_forall. intros z Hz.
      apply list_elem_of_In, in_map_iff in Hz as (k & <- & _).
      specialize (Hsym k). lia.
    + apply Forall_forall. intros z Hz.
      apply elem_of_replicate in Hz as [-> _]. specialize (Hsym 0). lia.
Qed.

Lemma makeAConfig_shape_witness :
  makeAConfig cm_var draw_12 = [1; 2; 0; 0]%Z
  ∧ active_length (makeAConfig cm_var draw_12) = 2.
Proof.
  destruct (makeAConfig_shape cm_var draw_12) as (_ & H1 & H2 & _).
  - simpl. lia.
  - intros _. simpl. lia.
  - intros k. simpl. case_decide; lia.
  - split; [exact H1|exact H2].
Defined.

(** ** The shape of the ensemble in a run *)

Lemma indOf_lt s : indOf s < Z.to_nat randintsResampleAt.
Proof.
  unfold indOf, randintsResampleAt.
  pose proof (Z.mod_pos_bound (iter s) 10000). lia.
Qed.

Section RowsInRun.
Context (cm : ConfigMain) (model : Model) (useOracle : bool) (rng : Rng).
Context (scoreFunction0 : R * R) (gammas0 : list R).
Context (P : row → Prop).
Context (Pinit : ∀ i, P (makeAConfig cm (initDraw rng i))).
Context (Preset : ∀ it i, P (makeAConfig cm (resetDraw rng it i))).
Context (Pprop : ∀ b ind i r,
  (b = stored (buf0 rng) ∨ ∃ it, b = stored (bufAt rng it)) →
  i < length gammas0 → ind < Z.to_nat randintsResampleAt →
  P r → P (propRow cm b ind i r)).

Abbreviation runState2 := (runState cm model useOracle rng scoreFunction0 gammas0).
Abbreviation midState2 := (midState cm model useOracle rng scoreFunction0 gammas0).

Abbreviation RowsInv2 := (RowsInv P rng).

Lemma RowsInv_iterate s :
  InvRun gammas0 s → RowsInv2 s → RowsInv2 (iterate cm model useOracle s).
Proof using Pprop.
  intros (Hn & Hc & _) [HP Hb]. split; [|done].
  apply Forall_lookup. intros i r' Hr'. cbn [config iterate] in Hr'.
  assert (i < nruns s) as Hi.
  { apply lookup_lt_Some in Hr'. unfold acceptStep in Hr'.
    rewrite length_updateConfigs in Hr'. simpl in Hr'. lia. }
  unfold acceptStep in Hr'. rewrite updateConfigs_row in Hr' by done.
  cbn [fst] in Hr'.
  destruct (lookup_lt_is_Some_2 (config s) i) as [r Hr]; [lia|].
  pose proof (Forall_lookup_1 _ _ _ _ HP Hr) as HPr.
  destruct (accepted _ _ _ _); [|by rewrite Hr in Hr'; injection Hr' as <-].
  rewrite list_lookup_insert_eq in Hr' by lia. injection Hr' as <-.
  assert (proposalOf cm s !! i = Some (propRow cm (buf s) (indOf s) i r)) as Hp.
  { unfold proposalOf. by rewrite lookup_propConfigs, Hr. }
  rewrite (list_lookup_total_correct _ _ _ Hp).
  apply Pprop; [done|lia|apply indOf_lt|done].
Qed.

Lemma RowsInv_updateAnnealing s :
  InvRun gammas0 s → RowsInv2 s → RowsInv2 (updateAnnealing cm rng s).
Proof using Preset.
  intros (Hn & Hc & _) [HP Hb]. split.
  - apply Forall_lookup. intros i r' Hr'.
    assert (i < nruns s) as Hi.
    { apply lookup_lt_Some in Hr'. rewrite length_config_updateAnnealing in Hr'. lia. }
    pose proof (updateAnnealing_view cm rng i s Hi) as Hv.
    unfold annealView, annealTraj in Hv. rewrite Hr' in Hv.
    destruct (lookup_lt_is_Some_2 (config s) i) as [r Hr]; [lia|].
    rewrite Hr in Hv.
    destruct (stagnant _ _ _); injection Hv as _ _ _ Hv; subst r';
      [apply Preset|].
    by apply (Forall_lookup_1 _ _ _ _ HP Hr).
  - assert (buf (updateAnnealing cm rng s) = buf s) as ->; [|done].
    unfold updateAnnealing. apply (foldl_preserved _ buf).
    intros j s'. unfold annealOne, resetConfig. cbv zeta. by repeat case_decide.
Qed.

Lemma RowsInv_runState n : RowsInv2 (runState2 n) ∧ RowsInv2 (midState2 n).
Proof using Pinit Preset Pprop.
  induction n as [|n [IH1 IH2]].
  - assert (RowsInv2 (runState2 0)) as H.
    { split; [|by left]. simpl. unfold getInitConfig.
      apply Forall_fmap, Forall_forall. intros i _. apply Pinit. }
    split; [done|].
    apply RowsInv_iterate; [|done].
    apply InvRun_set_iter, InvRun_runStart.
  - destruct (InvRun_runState cm model useOracle rng scoreFunction0 gammas0 n)
      as [_ Hm].
    assert (RowsInv2 (runState2 (S n))) as H.
    { rewrite runState_S. cbv zeta.
      pose proof (RowsInv_updateAnnealing _ Hm IH2) as [Ha Hb].
      destruct IH2 as [Hc Hd].
      repeat case_decide; split; simpl; eauto. }
    split; [done|].
    destruct (InvRun_runState cm model useOracle rng scoreFunction0 gammas0 (S n))
      as [Hs _].
    apply RowsInv_iterate; [by apply InvRun_set_iter|done].
Qed.
End RowsInRun.

(** With fixed length the loop body of [propConfigs] is the mutation
    alone. *)
Lemma propRow_no_change_fixed cm b ind i r :
  variable_length cm = false →
  propRow cm b ind i r
  = <[get2 0%nat (pickSpinRandint b) i ind := get2 0%Z (spinRandints b) i ind]> r.
Proof. intros H. unfold propRow. by rewrite H. Qed.

Lemma get2_replicate {A} (d x : A) n m i j :
  i < n → j < m → get2 d (replicate n (replicate m x)) i j = x.
Proof.
  intros Hi Hj. unfold get2.
  rewrite (lookup_replicate_2 n (replicate m x) i Hi). simpl.
  by rewrite (lookup_replicate_2 m x j Hj).
Qed.

Lemma full_row_valid cm r :
  (min_length cm ≤ max_length cm)%Z → (0 ≤ max_length cm)%Z →
  full_row cm r → valid_row cm r = true.
Proof.
  intros Hmm H0 [Hl Hnz]. rewrite <-(app_nil_r r).
  apply (valid_row_nonzero_prefix cm r 0); [done|]. lia.
Qed.

Lemma get2_fmap {A} (f : A → A) (d : A) (a : list (list A)) i j :
  f d = d → get2 d (fmap (M := list) f <$> a) i j = f (get2 d a i j).
Proof.
  intros Hd. unfold get2. rewrite list_lookup_fmap.
  destruct (a !! i) as [l|]; simpl; [|done].
  rewrite list_lookup_fmap. by destruct (l !! j).
Qed.

Lemma as_uint8_small z : (0 ≤ z ≤ 255)%Z → as_uint8 z = z.
Proof. intros H. unfold as_uint8. apply Z.mod_small. lia. Qed.

(** With fixed length and at most 255 symbols, every sequence of the
    ensemble has [max_length] nonzero symbols, hence is valid, after any
    number of iterations of [converge] on a new sampler: proposals,
    acceptances and re-randomizations keep it so.  The generator draws
    the symbols of the buffers between 1 and [dict_size]; they are stored
    as uint8, which keeps them as long as [dict_size] is below 256. *)
Theorem fixed_length_valid_in_run cm model useOracle rng scoreFunction0 gammas0 (n : nat) :
  variable_length cm = false →
  (0 ≤ min_length cm ≤ max_length cm)%Z →
  (dict_size cm ≤ 255)%Z →
  (∀ i k, randSymbol (initDraw rng i) k ≠ 0%Z) →
  (∀ it i k, randSymbol (resetDraw rng it i) k ≠ 0%Z) →
  spins_in_range (length gammas0) (dict_size cm) (buf0 rng) →
  (∀ it, spins_in_range (length gammas0) (dict_size cm) (bufAt rng it)) →
  let c := config (runState cm model useOracle rng scoreFunction0 gammas0 n) in
  length c = length gammas0
  ∧ Forall (λ r, full_row cm r ∧ valid_row cm r = true) c.
Proof.
  intros Hfix Hmm Hdict Hinit Hreset Hb0 Hb c.
  assert (∀ d, (∀ k, randSymbol d k ≠ 0%Z) → full_row cm (makeAConfig cm d)) as Hmk.
  { intros d Hd. unfold makeAConfig, full_row. rewrite Hfix.
    rewrite length_map, length_seq. split; [done|].
    apply Forall_forall. intros z Hz.
    apply list_elem_of_In, in_map_iff in Hz as (k & <- & _). apply Hd. }
  assert (∀ b i ind, spins_in_range (length gammas0) (dict_size cm) b →
            i < length gammas0 → ind < Z.to_nat randintsResampleAt →
            get2 0%Z (spinRandints (stored b)) i ind ≠ 0%Z) as Hst.
  { intros b i ind Hr Hi Hind. specialize (Hr i ind Hi Hind).
    cbn [spinRandints stored]. rewrite get2_fmap by done.
    rewrite as_uint8_small; lia. }
  destruct (RowsInv_runState cm model useOracle rng scoreFunction0 gammas0
              (full_row cm)) with (n := n) as [[HP _] _].
  - intros i. by apply Hmk.
  - intros it i. by apply Hmk.
  - intros b ind i r Hbuf Hi Hind [Hl Hnz].
    rewrite propRow_no_change_fixed by done. split.
    + by rewrite length_insert.
    + apply Forall_insert; [done|].
      destruct Hbuf as [->|[it ->]]; apply Hst; done.
  - destruct (InvRun_runState cm model useOracle rng scoreFunction0 gammas0 n)
      as [(_ & Hc & _) _].
    split; [done|]. eapply Forall_impl; [exact HP|].
    intros r Hr. split; [done|]. apply full_row_valid; (done || lia).
Qed.

Lemma fixed_length_valid_in_run_witness :
  Forall (λ r, full_row cm_fix r ∧ valid_row cm_fix r = true)
    (config (runState cm_fix model_first true rng_wide (1%R, 0%R) [1%R; 1%R] 5)).
Proof.
  destruct (fixed_length_valid_in_run cm_fix model_first true rng_wide (1%R, 0%R)
              [1%R; 1%R] 5) as [_ H].
  - reflexivity.
  - simpl. lia.
  - simpl. lia.
  - intros i k. simpl. lia.
  - intros it i k. simpl. lia.
  - intros i ind Hi Hind. simpl in Hi.
    unfold rng_wide, buf_wide, buf0, spinRandints.
    rewrite get2_replicate by (done || lia). simpl. lia.
  - intros it i ind Hi Hind. simpl in Hi.
    unfold rng_wide, buf_wide, bufAt, spinRandints.
    rewrite get2_replicate by (done || lia). simpl. lia.
  - exact H.
Defined.

(** In either mode the ensemble keeps its shape through a run: one row for
    each trajectory, each of [max_length] entries.  With variable length
    the drawn lengths lie below [max_length], as [randint] has them. *)
Theorem ensemble_shape_in_run cm model useOracle rng scoreFunction0 gammas0 (n : nat) :
  (0 ≤ max_length cm)%Z →
  (variable_length cm = true →
     (∀ i, 0 ≤ randChainLen (initDraw rng i) < max_length cm)%Z
     ∧ (∀ it i, 0 ≤ randChainLen (resetDraw rng it i) < max_length cm)%Z) →
  let c := config (runState cm model useOracle rng scoreFunction0 gammas0 n) in
  let c' := config (midState cm model useOracle rng scoreFunction0 gammas0 n) in
  length c = length gammas0
  ∧ Forall (λ r, length r = Z.to_nat (max_length cm)) c
  ∧ length c' = length gammas0
  ∧ Forall (λ r, length r = Z.to_nat (max_length cm)) c'.
Proof.
  intros Hmax Hvar c c'.
  assert (∀ d, (variable_length cm = true → (0 ≤ randChainLen d < max_length cm)%Z) →
               length (makeAConfig cm d) = Z.to_nat (max_length cm)) as Hmk.
  { intros d Hd. unfold makeAConfig. destruct (variable_length cm).
    - specialize (Hd eq_refl). rewrite decide_True by lia.
      rewrite length_app, length_map, length_seq, length_replicate. lia.
    - by rewrite length_map, length_seq. }
  destruct (RowsInv_runState cm model useOracle rng scoreFunction0 gammas0
              (λ r, length r = Z.to_nat (max_length cm))) with (n := n)
    as [[HP _] [HP' _]].
  - intros i. apply Hmk. intros Hv. by apply Hvar.
  - intros it i. apply Hmk. intros Hv. by apply Hvar.
  - intros b ind i r _ _ _ Hr. by rewrite length_propRow.
  - destruct (InvRun_runState cm model useOracle rng scoreFunction0 gammas0 n)
      as [(_ & Hc & _) (_ & Hc' & _)].
    done.
Qed.

Lemma ensemble_shape_in_run_witness :
  length (config (runState cm_var model_first true rng_var (1%R, 0%R) [1%R] 7)) = 1
  ∧ Forall (λ r, length r = 4)
      (config (runState cm_var model_first true rng_var (1%R, 0%R) [1%R] 7)).
Proof.
  destruct (ensemble_shape_in_run cm_var model_first true rng_var (1%R, 0%R) [1%R] 7)
    as (H1 & H2 & _).
  - simpl. lia.
  - intros _. split; [intros i|intros it i]; simpl; lia.
  - split; [exact H1|exact H2].
Defined.

(** ** Moves that do not raise the score *)

Lemma exp_le (x y : R) : (x <= y)%R → (exp x <= exp y)%R.
Proof.
  intros [Hlt| ->]; [|lra]. left. by apply exp_increasing.
Qed.

(** The STUN transform of a trajectory with [gamma >= 0] does not decrease
    when the score grows, whatever the two scores, and grows strictly for
    [gamma > 0].  It is below 1 everywhere, 0 at [absMin], not negative
    above [absMin] and, for [gamma > 0], negative below it. *)
Theorem computeSTUN_monotone gs (m : R) (sc1 sc2 : list R) (i : nat) (g s1 s2 : R) :
  gs !! i = Some g → sc1 !! i = Some s1 → sc2 !! i = Some s2 →
  (0 <= g)%R → (s1 <= s2)%R →
  ∃ f1 f2, computeSTUN gs m sc1 !! i = Some f1
         ∧ computeSTUN gs m sc2 !! i = Some f2
         ∧ (f1 <= f2)%R ∧ (f2 < 1)%R
         ∧ ((0 < g)%R → (s1 < s2)%R → (f1 < f2)%R)
         ∧ ((m <= s1)%R → (0 <= f1)%R)
         ∧ (s1 = m → f1 = 0%R)
         ∧ ((0 < g)%R → (s1 < m)%R → (f1 < 0)%R).
Proof.
  intros Hg H1 H2 Hg0 Hs.
  exists (stun g m s1), (stun g m s2).
  rewrite (computeSTUN_lookup _ _ _ _ _ _ Hg H1), (computeSTUN_lookup _ _ _ _ _ _ Hg H2).
  split; [done|]. split; [done|]. unfold stun.
  assert (exp (- g * (s2 - m)) <= exp (- g * (s1 - m)))%R by (apply exp_le; nra).
  pose proof (exp_pos (- g * (s2 - m))).
  split; [lra|]. split; [lra|]. split; [|split; [|split]].
  - intros Hg1 Hlt.
    assert (exp (- g * (s2 - m)) < exp (- g * (s1 - m)))%R
      by (apply exp_increasing; nra).
    lra.
  - intros Hm.
    assert (exp (- g * (s1 - m)) <= exp 0)%R as H3 by (apply exp_le; nra).
    rewrite exp_0 in H3. lra.
  - intros ->. replace (- g * (m - m))%R with 0%R by lra. rewrite exp_0. lra.
  - intros Hg1 Hlt.
    assert (exp 0 < exp (- g * (s1 - m)))%R as H3 by (apply exp_increasing; nra).
    rewrite exp_0 in H3. lra.
Qed.

Lemma computeSTUN_monotone_witness :
  ∃ f1 f2, computeSTUN [1%R] 0 [1%R] !! 0 = Some f1
         ∧ computeSTUN [1%R] 0 [2%R] !! 0 = Some f2
         ∧ (f1 <= f2)%R.
Proof.
  destruct (computeSTUN_monotone [1%R] 0 [1%R] [2%R] 0 1 1 2)
    as (f1 & f2 & H1 & H2 & H3 & _).
  - reflexivity.
  - reflexivity.
  - reflexivity.
  - lra.
  - lra.
  - exists f1, f2. split; [exact H1|]. split; [exact H2|exact H3].
Defined.

(** A proposal whose score is not above the score of the current sequence
    has the acceptance ratio 1 and is accepted, with STUN on (for
    [gamma >= 0]) or off: the uniform draws are below 1. *)
Theorem downhill_always_accepted cm model useOracle (s : Sampler) (i : nat)
    (g sp scur T : R) :
  i < nruns s →
  length (config s) = nruns s →
  gammas s !! i = Some g →
  (0 <= g)%R →
  (scoresOf cm model useOracle s).1.1.1 !! i = Some sp →
  (scoresOf cm model useOracle s).1.1.2 !! i = Some scur →
  (sp <= scur)%R →
  temperature s !! i = Some T →
  (0 < T)%R →
  (get2 0%R (alphaRandoms (buf s)) i (indOf s) < 1)%R →
  let s' := iterate cm model useOracle s in
  acceptanceRatio s' !! i = Some (Fin 1)
  ∧ is_Some (propConfig s' !! i)
  ∧ config s' !! i = propConfig s' !! i.
Proof.
  intros Hi Hlen Hg Hg0 Hsp Hsc Hle HT Hpos Hal s'.
  set (m := absMin (trackerOf cm model useOracle s)).
  set (de := (if decide (STUN s = 1%Z) then stun g m sp - stun g m scur
              else sp - scur)%R).
  assert (DE s' !! i = Some de) as Hde.
  { simpl. unfold deOf. by rewrite (getDE_lookup _ _ _ _ _ _ _ _ Hg Hsp Hsc). }
  assert (de <= 0)%R as Hneg.
  { subst de. case_decide; [|lra]. unfold stun.
    assert (exp (- g * (scur - m)) <= exp (- g * (sp - m)))%R by (apply exp_le; nra).
    lra. }
  assert (Rmin 1 (exp (- de / T)) = 1%R) as Hmin.
  { apply Rmin_left.
    assert (exp 0 <= exp (- de / T))%R as H.
    { apply exp_le. apply Rmult_le_pos; [lra|]. left. by apply Rinv_0_lt_compat. }
    by rewrite exp_0 in H. }
  assert (acceptanceRatio s' !! i = Some (Fin 1)) as Hratio.
  { simpl. unfold ratioOf. change (deOf cm model useOracle s).2 with (DE s').
    by rewrite (acceptanceRatios_lookup _ _ _ _ _ Hde HT Hpos), Hmin. }
  assert (is_Some (propConfig s' !! i)) as [p Hp].
  { apply lookup_lt_is_Some. simpl. rewrite length_proposalOf. lia. }
  split; [done|]. split; [by exists p|].
  change (config s') with (acceptStep cm model useOracle s).1.
  unfold acceptStep. rewrite updateConfigs_row by done.
  unfold accepted. change (ratioOf cm model useOracle s) with (acceptanceRatio s').
  rewrite Hratio. simpl. rewrite bool_decide_eq_true_2 by done.
  rewrite list_lookup_insert_eq by lia.
  change (proposalOf cm s) with (propConfig s').
  by rewrite (list_lookup_total_correct _ _ _ Hp).
Qed.

Lemma downhill_always_accepted_witness :
  config (iterate cm_fix model_first true start_two) !! 0
  = propConfig (iterate cm_fix model_first true start_two) !! 0.
Proof.
  destruct (downhill_always_accepted cm_fix model_first true start_two 0
              1%R (1 * 1 - 0 * 0)%R (1 * 2 - 0 * 0)%R (1 / 10)%R) as (_ & _ & H).
  - simpl. lia.
  - reflexivity.
  - reflexivity.
  - lra.
  - reflexivity.
  - reflexivity.
  - lra.
  - reflexivity.
  - lra.
  - unfold get2. simpl. lra.
  - exact H.
Defined.

(** ** The best scores *)

Lemma not_worse_refl t : not_worse t t.
Proof.
  split; [done|]. split; [lra|]. intros i e e' H1 H2.
  rewrite H1 in H2. injection H2 as ->. lra.
Qed.

Lemma not_worse_trans t1 t2 t3 : not_worse t1 t2 → not_worse t2 t3 → not_worse t1 t3.
Proof.
  intros (L1 & A1 & E1) (L2 & A2 & E2). split; [congruence|]. split; [lra|].
  intros i e e'' H1 H3.
  destruct (lookup_lt_is_Some_2 (E0 t2) i) as [e' H2].
  { apply lookup_lt_Some in H1. lia. }
  pose proof (E1 i e e' H1 H2). pose proof (E2 i e' e'' H2 H3). lra.
Qed.

Lemma not_worse_saveOptima c p sc en va it ind nb t :
  ind < length (E0 t) →
  (nb = true → (sc.1 !!! ind < E0 t !!! ind)%R) →
  not_worse t (saveOptima c p sc en va it ind nb t).
Proof.
  intros Hi Hnb. unfold saveOptima, not_worse.
  destruct nb; simpl.
  2:{ rewrite orb_false_r. destruct (negb _); simpl;
        (split; [done|]; split; [lra|]); intros i e e' H1 H2;
        rewrite H1 in H2; injection H2 as ->; lra. }
  rewrite orb_true_r. simpl. specialize (Hnb eq_refl).
  rewrite length_insert. split; [done|]. split.
  - case_decide; lra.
  - intros i e e' H1 H2. destruct (decide (i = ind)) as [->|Hne].
    + rewrite list_lookup_insert_eq in H2 by done. injection H2 as <-.
      rewrite (list_lookup_total_correct _ _ _ H1) in Hnb. lra.
    + rewrite list_lookup_insert_ne in H2 by done.
      rewrite H1 in H2. injection H2 as ->. lra.
Qed.

(** Through the accept/update step no trajectory's best score [E0] rises
    and the shared minimum [absMin] does not rise; [absMin] stays the
    least of the best scores. *)
Theorem best_scores_never_rise al ind ratio prop sc en va it (n : nat) c (t : Tracker) :
  AbsMinInv t →
  n ≤ length (E0 t) →
  let t' := (updateConfigs al ind ratio prop sc en va it n (c, t)).2 in
  AbsMinInv t'
  ∧ length (E0 t') = length (E0 t)
  ∧ (absMin t' <= absMin t)%R
  ∧ ∀ i e e', E0 t !! i = Some e → E0 t' !! i = Some e' → (e' <= e)%R.
Proof.
  intros Ht Hn t'. split; [by apply AbsMinInv_updateConfigs|].
  subst t'. unfold updateConfigs.
  pose (P := λ (k : nat) (st : list row * Tracker), not_worse t st.2).
  assert (P n (foldl (λ st i, acceptOne al ind ratio prop sc en va it i st)
                 (c, t) (seq 0 n))) as H; [|exact H].
  apply foldl_seq_ind; [apply not_worse_refl|].
  intros k [ck tk] Hk Hnw. unfold P in *. cbn [snd] in Hnw.
  apply (not_worse_trans _ tk); [done|].
  assert (k < length (E0 (recordAcceptance it k tk))) as Hk'.
  { destruct Hnw as [Hl _]. simpl. lia. }
  unfold acceptOne. destruct (np_lt_l _ _); [|apply not_worse_refl].
  destruct (bool_decide (sc.1 !!! k < E0 (recordAcceptance it k tk) !!! k)%R) eqn:Hb.
  - cbn [snd].
    apply (not_worse_trans _ (recordAcceptance it k tk)); [exact (not_worse_refl tk)|].
    apply not_worse_saveOptima; [done|].
    intros _. by apply bool_decide_eq_true_1 in Hb.
  - destruct (nearOldBest _ _); [|exact (not_worse_refl tk)].
    cbn [snd].
    apply (not_worse_trans _ (recordAcceptance it k tk)); [exact (not_worse_refl tk)|].
    by apply not_worse_saveOptima.
Qed.

Lemma best_scores_never_rise_witness :
  (absMin (updateConfigs [[0%R]] 0 [Fin 1] [[1; 2]%Z] ([1%R], [2%R]) ([1%R], [2%R])
             ([0%R], [0%R]) 0 1
             ([[2; 2]%Z], initOptima 1 ([1%R], [2%R]) ([1%R], [2%R]) ([0%R], [0%R]))).2
   <= 2)%R.
Proof.
  destruct (best_scores_never_rise [[0%R]] 0 [Fin 1] [[1; 2]%Z] ([1%R], [2%R])
              ([1%R], [2%R]) ([0%R], [0%R]) 0 1 [[2; 2]%Z]
              (initOptima 1 ([1%R], [2%R]) ([1%R], [2%R]) ([0%R], [0%R])))
    as (_ & _ & H & _).
  - apply AbsMinInv_initOptima.
  - simpl. lia.
  - exact H.
Defined.

(** ** The records only grow *)









(** ** Recording in a run *)

Lemma balanced_stepRel it i t t' : balanced i t → stepRel it i t t' → balanced i t'.
Proof.
  intros (lo & li & Ho & Hi & Hl & Hp) [[Ho' Hi']|(x & Ho' & Hi')].
  - exists lo, li. by rewrite Ho', Hi'.
  - exists (lo ++ [x]), (li ++ [it]). rewrite Ho', Hi', Ho, Hi.
    split; [done|]. split; [done|]. rewrite !length_app. simpl. lia.
Qed.

Lemma balanced_in_run cm model useOracle rng scoreFunction0 gammas0 (n i : nat) :
  i < length gammas0 →
  ∃ t, tracker (midState cm model useOracle rng scoreFunction0 gammas0 n) = Some t
       ∧ balanced i t.
Proof.
  intros Hi. induction n as [|n (t & Ht & Hb)].
  - assert (InvRun gammas0 (set_iter 0 (runStart cm rng scoreFunction0 gammas0))) as H0.
    { apply InvRun_set_iter, InvRun_runStart. }
    destruct (InvRun_iterate cm model useOracle _ _ H0) as [_ Hrel].
    eexists. split; [reflexivity|].
    eapply balanced_stepRel; [|exact (Hrel i Hi)].
    exists [(scoresOf cm model useOracle
               (set_iter 0 (runStart cm rng scoreFunction0 gammas0))).1.1.2 !!! i],
           [0%Z].
    unfold trackerOf. simpl. rewrite !list_lookup_fmap, !lookup_seq_lt by done.
    simpl. split; [done|]. split; [done|]. split; [done|]. lia.
  - destruct (InvRun_runState cm model useOracle rng scoreFunction0 gammas0 (S n))
      as [HS _].
    assert (InvRun gammas0
              (set_iter (Z.of_nat (S n))
                 (runState cm model useOracle rng scoreFunction0 gammas0 (S n)))) as H0.
    { by apply InvRun_set_iter. }
    destruct (InvRun_iterate cm model useOracle _ _ H0) as [_ Hrel].
    eexists. split; [reflexivity|].
    eapply balanced_stepRel; [|exact (Hrel i Hi)].
    unfold trackerOf. simpl tracker.
    by rewrite tracker_runState_S, Ht.
Qed.

(** In a run of [converge] on a new sampler a sequence is recorded for a
    trajectory only in the iterations in which it finds a new best: the
    trajectory has always as many recorded scores as new-best iterations.
    A proposal that is only within the record margin is never recorded,
    because the pool holds the view of the trajectory's row, which shows
    the proposal already. *)
Theorem recorded_only_on_new_best cm model useOracle rng scoreFunction0 gammas0 (n i : nat) :
  i < length gammas0 →
  let s := midState cm model useOracle rng scoreFunction0 gammas0 n in
  length (optimaOf s i) = length (optimalIndsOf s i)
  ∧ 0 < length (optimaOf s i).
Proof.
  intros Hi s.
  destruct (balanced_in_run cm model useOracle rng scoreFunction0 gammas0 n i Hi)
    as (t & Ht & lo & li & Ho & Hli & Hl & Hp).
  fold s in Ht.
  unfold optimaOf, optimalIndsOf. rewrite Ht. simpl. rewrite Ho, Hli. simpl. lia.
Qed.

Lemma recorded_only_on_new_best_witness :
  0 < length (optimaOf (midState cm_fix model_first true rng_two (1%R, 0%R)
                          [1%R; 1%R] 3) 1).
Proof.
  destruct (recorded_only_on_new_best cm_fix model_first true rng_two (1%R, 0%R)
              [1%R; 1%R] 3 1) as [_ H].
  - simpl. lia.
  - exact H.
Defined.

(** ** The record margin *)

(** The margin test of [updateConfigs] is reached with a score that is
    not below the trajectory's best score.  If that best score is
    positive the test succeeds for every such score, so each accepted
    proposal goes to [saveOptima]; if it is negative the test succeeds
    exactly for the scores below 0.8 times the best score. *)
Theorem margin_test_by_sign (e0 score : R) :
  (e0 <= score)%R →
  ((0 < e0)%R → nearOldBest e0 score = true)
  ∧ ((e0 < 0)%R → nearOldBest e0 score = bool_decide (score < 8 / 10 * e0)%R).
Proof.
  intros Hle. unfold nearOldBest, np_div, recordMargin. split; intros H0.
  - rewrite decide_False by lra. simpl. apply bool_decide_eq_true_2.
    apply Rmult_lt_reg_r with e0; [done|].
    unfold Rdiv. rewrite Rmult_assoc, Rinv_l by lra. lra.
  - rewrite decide_False by lra. simpl.
    assert ((e0 - score) / e0 * e0 = e0 - score)%R as Hq by (field; lra).
    set (q := ((e0 - score) / e0)%R) in *.
    apply bool_decide_ext. split; intros; nra.
Qed.

Lemma margin_test_by_sign_witness : nearOldBest 1 2 = true.
Proof.
  destruct (margin_test_by_sign 1 2) as [H _].
  - lra.
  - apply H. lra.
Defined.

(** ** The proposal *)

(** The proposal for a trajectory has the length of the current sequence
    and differs from it in at most two positions: the position drawn for
    the mutation and the first position after the nonzero symbols, where
    an extension is written. *)
Theorem proposal_is_local cm b nruns (config : list row) ind i (r : row) :
  i < nruns → config !! i = Some r →
  let pick := get2 0%nat (pickSpinRandint b) i ind in
  let r1 := <[pick := get2 0%Z (spinRandints b) i ind]> r in
  ∃ p, propConfigs cm b nruns config ind !! i = Some p
     ∧ length p = length r
     ∧ ∀ j, j ≠ pick → j ≠ Z.to_nat (count_nonzero r1) → p !! j = r !! j.
Proof.
  intros Hi Hr pick r1. rewrite lookup_propConfigs, Hr by done. simpl.
  eexists. split; [done|]. split; [apply length_propRow|].
  intros j Hj1 Hj2. unfold propRow. fold pick. fold r1.
  assert (r1 !! j = r !! j) as H1.
  { subst r1. by rewrite list_lookup_insert_ne. }
  destruct (variable_length cm); [|done].
  repeat case_decide; try done.
  - by rewrite list_lookup_insert_ne.
  - unfold count_nonzero in *. lia.
Qed.

Lemma proposal_is_local_witness :
  ∃ p, propConfigs cm_var (buf_one 1 3 0 0 1) 1 [[1; 2; 0; 0]]%Z 0 !! 0 = Some p
     ∧ length p = 4.
Proof.
  destruct (proposal_is_local cm_var (buf_one 1 3 0 0 1) 1 [[1; 2; 0; 0]]%Z 0 0
              [1; 2; 0; 0]%Z) as (p & H1 & H2 & _).
  - lia.
  - reflexivity.
  - exists p. split; [exact H1|exact H2].
Defined.

(** ** The scores *)

Lemma weighted_zero (w v : R) (l : list R) :
  weighted w v l ((λ _, 0%R) <$> l) = (λ e, w * e)%R <$> l.
Proof.
  unfold weighted. induction l as [|x l IH]; [done|].
  simpl. f_equal; [lra|done].
Qed.

(** In each of its three modes [getScores] computes row 0 of the scores,
    energies and variances from the proposals alone and row 1 from the
    current sequences alone, by the same function.  With the oracle the
    variances are zero and the score is the energy times the first
    weight: the second weight has no effect. *)
Theorem getScores_rows sf model useOracle :
  (∃ f : list row → list R * list R * list R, ∀ p c,
     getScores sf model useOracle p c
     = (((f p).1.1, (f c).1.1), ((f p).1.2, (f c).1.2), ((f p).2, (f c).2)))
  ∧ ∀ p c, (getScores sf model true p c).1.1.1
           = (λ e, sf.1 * e)%R <$> oracle_score model p
           ∧ (getScores sf model true p c).1.1.2
             = (λ e, sf.1 * e)%R <$> oracle_score model c.
Proof.
  split.
  - unfold getScores. destruct useOracle; [|destruct (learned_DQN model)].
    + exists (λ x, (weighted sf.1 sf.2 (oracle_score model x)
                      ((λ _, 0%R) <$> oracle_score model x),
                    oracle_score model x, (λ _, 0%R) <$> oracle_score model x)).
      done.
    + exists (λ x, (Ropp <$> evaluateQ model x,
                    (λ _, 0%R) <$> (Ropp <$> evaluateQ model x),
                    (λ _, 0%R) <$> (Ropp <$> evaluateQ model x))).
      done.
    + exists (λ x, (weighted sf.1 sf.2 (evaluate model x).1 (sqrt <$> (evaluate model x).2),
                    (evaluate model x).1, (evaluate model x).2)).
      done.
  - intros p c. unfold getScores. simpl. by rewrite !weighted_zero.
Qed.

(** ** The schedule of a run *)

Lemma buf_updateAnnealing cm rng s : buf (updateAnnealing cm rng s) = buf s.
Proof.
  unfold updateAnnealing. apply (foldl_preserved _ buf).
  intros j s'. unfold annealOne, resetConfig. cbv zeta. by repeat case_decide.
Qed.

(** The buffers of random numbers in a run of [converge], as they are
    stored: the buffers drawn before the loop serve iteration 0 only,
    since iteration 0 ends with a new draw; every later iteration [n + 1]
    uses the buffers drawn at the end of the last iteration up to [n]
    that is a multiple of 10000. *)
Theorem buffer_schedule cm model useOracle rng scoreFunction0 gammas0 :
  buf (runState cm model useOracle rng scoreFunction0 gammas0 0) = stored (buf0 rng)
  ∧ ∀ n, buf (runState cm model useOracle rng scoreFunction0 gammas0 (S n))
         = stored (bufAt rng (10000 * (Z.of_nat n / 10000))).
Proof.
  split; [done|]. intros n. induction n as [|n IH].
  - done.
  - rewrite runState_S. cbv zeta. unfold randintsResampleAt.
    destruct (decide (Z.of_nat (S n) mod 10000 = 0)%Z) as [H0|H0].
    + cbn [buf resampleRandints]. do 2 f_equal.
      pose proof (Z.div_mod (Z.of_nat (S n)) 10000). lia.
    + assert (buf (midState cm model useOracle rng scoreFunction0 gammas0 (S n))
              = stored (bufAt rng (10000 * (Z.of_nat n / 10000)))) as Hm.
      { unfold midState. cbn [buf iterate set_iter]. exact IH. }
      assert (Z.of_nat n / 10000 = Z.of_nat (S n) / 10000)%Z as <-.
      { rewrite Nat2Z.inj_succ in *. Z.div_mod_to_equations. lia. }
      case_decide; [by rewrite buf_updateAnnealing|done].
Qed.

(** ** The rolling acceptance rate *)

Lemma acceptedRecently_le it recs : acceptedRecently it recs ≤ 100.
Proof.
  unfold acceptedRecently, lastn, history.
  etrans; [apply length_filter|]. rewrite length_drop. lia.
Qed.

Lemma is_fraction_bounds a : is_fraction a → (0 <= a <= 1)%R.
Proof.
  intros (k & Hk & ->).
  pose proof (pos_INR k). pose proof (le_INR k 100 Hk) as Hle.
  assert (INR 100 = 100%R) as E by (rewrite INR_IZR_INZ; done).
  rewrite E in Hle. lra.
Qed.

Lemma rates_annealOne cm rng j s :
  Forall is_fraction (acceptanceRate s) →
  Forall is_fraction (acceptanceRate (annealOne cm rng j s))
  ∧ length (acceptanceRate (annealOne cm rng j s)) = length (acceptanceRate s).
Proof.
  intros H.
  assert (is_fraction (INR (acceptedRecently (iter s) (recIndsOf s j)) / IZR history)).
  { eexists. split; [apply acceptedRecently_le|done]. }
  unfold annealOne, resetConfig. cbv zeta.
  repeat case_decide;
    cbn [acceptanceRate set_temperature set_resetInd set_config set_acceptanceRate];
    (split; [by apply Forall_insert|by rewrite length_insert]).
Qed.

Lemma rates_updateAnnealing cm rng s :
  Forall is_fraction (acceptanceRate s) →
  Forall is_fraction (acceptanceRate (updateAnnealing cm rng s))
  ∧ length (acceptanceRate (updateAnnealing cm rng s)) = length (acceptanceRate s).
Proof.
  intros H. unfold updateAnnealing.
  apply (foldl_invariant _ (λ s',
    Forall is_fraction (acceptanceRate s')
    ∧ length (acceptanceRate s') = length (acceptanceRate s))); [|done].
  intros j s' [H1 H2]. destruct (rates_annealOne cm rng j s' H1) as [H3 H4].
  split; [done|congruence].
Qed.

(** Throughout a run of [converge] on a new sampler there is one rolling
    acceptance rate for each trajectory, and each is a number of
    iterations out of 100: it lies between 0 and 1. *)
Theorem acceptance_rate_is_fraction cm model useOracle rng scoreFunction0 gammas0 (n : nat) :
  let a := acceptanceRate (runState cm model useOracle rng scoreFunction0 gammas0 n) in
  length a = length gammas0
  ∧ Forall (λ x, is_fraction x ∧ (0 <= x <= 1)%R) a.
Proof.
  intros a. subst a.
  assert (length (acceptanceRate (runState cm model useOracle rng scoreFunction0 gammas0 n))
          = length gammas0
          ∧ Forall is_fraction
              (acceptanceRate (runState cm model useOracle rng scoreFunction0 gammas0 n)))
    as [Hl HF].
  { induction n as [|n [IH1 IH2]].
    - simpl. rewrite length_replicate. split; [done|].
      apply Forall_replicate. exists 0. split; [lia|]. simpl. lra.
    - rewrite runState_S. cbv zeta.
      assert (acceptanceRate (midState cm model useOracle rng scoreFunction0 gammas0 n)
              = acceptanceRate (runState cm model useOracle rng scoreFunction0 gammas0 n))
        as Hm by done.
      rewrite <-Hm in IH1, IH2.
      destruct (rates_updateAnnealing cm rng _ IH2) as [H1 H2].
      repeat case_decide; cbn [acceptanceRate resampleRandints];
        (split; [congruence|done]). }
  split; [done|]. eapply Forall_impl; [exact HF|].
  intros x Hx. split; [done|by apply is_fraction_bounds].
Qed.

(** ** The first iterations of a run *)

Lemma no_reset_annealOne cm rng j s :
  (iter s ≤ 1000)%Z → Forall (λ r, 0 ≤ r)%Z (resetInd s) →
  resetInd (annealOne cm rng j s) = resetInd s
  ∧ config (annealOne cm rng j s) = config s
  ∧ iter (annealOne cm rng j s) = iter s.
Proof.
  intros Hit Hr.
  assert (0 ≤ resetInd s !!! j)%Z as H0.
  { rewrite lookup_total_default. destruct (resetInd s !! j) as [r|] eqn:E; simpl.
    - by apply (Forall_lookup_1 _ _ _ _ Hr E).
    - done. }
  unfold annealOne. cbv zeta.
  repeat case_decide; try done; exfalso;
    cbn [iter resetInd set_temperature set_acceptanceRate] in *; lia.
Qed.

Lemma no_reset_updateAnnealing cm rng s :
  (iter s ≤ 1000)%Z → Forall (λ r, 0 ≤ r)%Z (resetInd s) →
  resetInd (updateAnnealing cm rng s) = resetInd s
  ∧ config (updateAnnealing cm rng s) = config s.
Proof.
  intros Hit Hr. unfold updateAnnealing.
  assert (resetInd (foldl (λ s i, annealOne cm rng i s) s (seq 0 (nruns s))) = resetInd s
          ∧ config (foldl (λ s i, annealOne cm rng i s) s (seq 0 (nruns s))) = config s
          ∧ iter (foldl (λ s i, annealOne cm rng i s) s (seq 0 (nruns s))) = iter s)
    as (H1 & H2 & _); [|done].
  apply (foldl_invariant _ (λ s',
    resetInd s' = resetInd s ∧ config s' = config s ∧ iter s' = iter s)); [|done].
  intros j s' (E1 & E2 & E3).
  destruct (no_reset_annealOne cm rng j s') as (A & B & C); [lia|by rewrite E1|].
  rewrite A, B, C. done.
Qed.

Lemma resetInd_early cm model useOracle rng scoreFunction0 gammas0 (n : nat) :
  n ≤ 1010 →
  resetInd (runState cm model useOracle rng scoreFunction0 gammas0 n)
  = replicate (length gammas0) 0%Z.
Proof.
  induction n as [|n IH]; intros Hn.
  - simpl. apply fmap_const_seq.
  - specialize (IH ltac:(lia)).
    assert (resetInd (midState cm model useOracle rng scoreFunction0 gammas0 n)
            = replicate (length gammas0) 0%Z) as Hm by exact IH.
    rewrite runState_S. cbv zeta.
    assert (∀ b s, resetInd (resampleRandints b s) = resetInd s) as Hrs by done.
    destruct (decide (Z.of_nat n mod deltaIter = 0 ∧ Z.of_nat n > 0)%Z) as [[H1 H2]|_].
    + destruct (no_reset_updateAnnealing cm rng
                  (midState cm model useOracle rng scoreFunction0 gammas0 n)) as [E _].
      * rewrite iter_midState. unfold deltaIter in H1.
      Z.div_mod_to_equations. lia.
      * rewrite Hm. apply Forall_replicate. lia.
      * case_decide; rewrite ?Hrs, E; done.
    + case_decide; rewrite ?Hrs; done.
Qed.

(** No trajectory is re-randomized in the iterations 0 to 1009 of a run
    of [converge] on a new sampler, whatever the scores: the reset
    iterations stay 0, and what an iteration leaves in [config] is what
    its accept/update step left there. *)
Theorem no_reset_in_first_iterations cm model useOracle rng scoreFunction0 gammas0
    (n : nat) :
  n ≤ 1009 →
  let s := runState cm model useOracle rng scoreFunction0 gammas0 (S n) in
  resetInd s = replicate (length gammas0) 0%Z
  ∧ config s = config (midState cm model useOracle rng scoreFunction0 gammas0 n).
Proof.
  intros Hn s. subst s. split; [apply resetInd_early; lia|].
  rewrite runState_S. cbv zeta.
  assert (∀ b s, config (resampleRandints b s) = config s) as Hrs by done.
  destruct (decide (Z.of_nat n mod deltaIter = 0 ∧ Z.of_nat n > 0)%Z) as [[H1 H2]|_].
  - destruct (no_reset_updateAnnealing cm rng
                (midState cm model useOracle rng scoreFunction0 gammas0 n)) as [_ E].
    + rewrite iter_midState. unfold deltaIter in H1.
      Z.div_mod_to_equations. lia.
    + assert (resetInd (midState cm model useOracle rng scoreFunction0 gammas0 n)
              = replicate (length gammas0) 0%Z) as ->.
      { apply (resetInd_early cm model useOracle rng scoreFunction0 gammas0 n). lia. }
      apply Forall_replicate. lia.
    + case_decide; rewrite ?Hrs, E; done.
  - case_decide; rewrite ?Hrs; done.
Qed.

Lemma no_reset_in_first_iterations_witness :
  resetInd (runState cm_fix model_first true rng_two (1%R, 0%R) [1%R; 1%R] 21)
  = replicate 2 0%Z.
Proof.
  destruct (no_reset_in_first_iterations cm_fix model_first true rng_two (1%R, 0%R)
              [1%R; 1%R] 20) as [H _].
  - lia.
  - exact H.
Defined.

(** ** Calling the sampler *)

(** [__call__] runs no iteration: it passes the default [nIters = False]
    to [converge], whose loop is then empty.  On a sampler that has never
    iterated it raises, because the pool whose size the last line of
    [converge] reports does not exist yet; on any other sampler it only
    resets the convergence statistics and draws new buffers, and reports
    the size of the pool. *)
Theorem call_runs_no_iteration cm model rng scoreFunction0 gammas0 :
  (∀ s, call cm model rng s
        = (λ t, (resampleRandints (buf0 rng) (initConvergenceStats s),
                 length (allOptimalConfigs t))) <$> tracker s)
  ∧ call cm model rng (new_Sampler cm rng scoreFunction0 gammas0) = None.
Proof.
  split; [|done].
  intros s. unfold call, converge_full, converge_report, converge. simpl.
  by destruct (tracker s).
Qed.

(** ** The annealing run *)

Lemma iterate_rows cm model useOracle (P : row → Prop) s :
  length (config s) = nruns s →
  (∀ i r, P r → P (propRow cm (buf s) (indOf s) i r)) →
  Forall P (config s) → Forall P (config (iterate cm model useOracle s)).
Proof.
  intros Hc Hprop HP.
  apply Forall_lookup. intros i r' Hr'. cbn [config iterate] in Hr'.
  assert (i < nruns s) as Hi.
  { apply lookup_lt_Some in Hr'. unfold acceptStep in Hr'.
    rewrite length_updateConfigs in Hr'. simpl in Hr'. lia. }
  unfold acceptStep in Hr'. rewrite updateConfigs_row in Hr' by done.
  cbn [fst] in Hr'.
  destruct (lookup_lt_is_Some_2 (config s) i) as [r Hr]; [lia|].
  pose proof (Forall_lookup_1 _ _ _ _ HP Hr) as HPr.
  destruct (accepted _ _ _ _); [|by rewrite Hr in Hr'; injection Hr' as <-].
  rewrite list_lookup_insert_eq in Hr' by lia. injection Hr' as <-.
  assert (proposalOf cm s !! i = Some (propRow cm (buf s) (indOf s) i r)) as Hp.
  { unfold proposalOf. by rewrite lookup_propConfigs, Hr. }
  rewrite (list_lookup_total_correct _ _ _ Hp). by apply Hprop.
Qed.

Lemma length_config_iterate cm model useOracle s :
  length (config (iterate cm model useOracle s)) = length (config s).
Proof. cbn [config iterate]. unfold acceptStep. by rewrite length_updateConfigs. Qed.

(** [postSampleAnnealing] keeps the shape of the configurations it is
    given: as many rows, each of the same length.  It never calls
    [updateAnnealing]: the reset iterations and the rolling acceptance
    rates are zero at its end. *)
Theorem annealing_keeps_shape cm model useOracle rng (initConfigs : list row)
    (s : Sampler) (L : nat) :
  Forall (λ r, length r = L) initConfigs →
  let s' := postSampleAnnealing cm model useOracle rng initConfigs s in
  length (config s') = length initConfigs
  ∧ Forall (λ r, length r = L) (config s')
  ∧ resetInd s' = replicate (length initConfigs) 0%Z
  ∧ acceptanceRate s' = replicate (length initConfigs) 0%R.
Proof.
  intros HL s'. subst s'. rewrite postSampleAnnealing_annealState.
  generalize (post_annealing_time cm). intros k.
  assert (nruns (annealState cm model useOracle rng initConfigs s k) = length initConfigs
          ∧ length (config (annealState cm model useOracle rng initConfigs s k))
            = length initConfigs
          ∧ Forall (λ r, length r = L)
              (config (annealState cm model useOracle rng initConfigs s k))
          ∧ resetInd (annealState cm model useOracle rng initConfigs s k)
            = replicate (length initConfigs) 0%Z
          ∧ acceptanceRate (annealState cm model useOracle rng initConfigs s k)
            = replicate (length initConfigs) 0%R) as (_ & H); [|exact H].
  induction k as [|k (Hn & Hc & HF & Hr & Ha)].
  - unfold annealState, annealStart. simpl.
    split; [done|]. split; [done|]. split; [done|]. split; [apply fmap_const_seq|done].
  - rewrite annealState_S.
    set (sk := annealState cm model useOracle rng initConfigs s k) in *.
    assert (config (annealStep cm model useOracle rng sk (Z.of_nat k))
            = config (iterate cm model useOracle (set_iter (Z.of_nat k) sk))) as Ec.
    { unfold annealStep. cbv zeta. by case_decide. }
    assert (resetInd (annealStep cm model useOracle rng sk (Z.of_nat k)) = resetInd sk)
      as Er.
    { unfold annealStep. cbv zeta. by case_decide. }
    assert (acceptanceRate (annealStep cm model useOracle rng sk (Z.of_nat k))
            = acceptanceRate sk) as Ea.
    { unfold annealStep. cbv zeta. by case_decide. }
    rewrite annealStep_nruns, Ec, Er, Ea, length_config_iterate.
    split; [done|]. split; [done|]. split; [|done].
    apply iterate_rows; [cbn; lia| |done].
    intros i r Hlen. by rewrite length_propRow.
Qed.

Lemma annealing_keeps_shape_witness :
  length (config (postSampleAnnealing cm_fix model_first true rng_two [[1; 2]%Z]
                    start_two)) = 1.
Proof.
  destruct (annealing_keeps_shape cm_fix model_first true rng_two [[1; 2]%Z]
              start_two 2) as [H _].
  - apply Forall_singleton. reflexivity.
  - exact H.
Defined.

(** ** The debug records *)

Lemma append_at_Some i x (a : list (list R)) :
  i < length a → append_at i x a = Some (alter (λ l, l ++ [x]) i a).
Proof.
  intros Hi. unfold append_at.
  destruct (lookup_lt_is_Some_2 a i Hi) as [l Hl]. rewrite Hl. simpl. f_equal.
  apply list_eq. intros j. destruct (decide (i = j)) as [<-|Hne].
  - by rewrite list_lookup_insert_eq, list_lookup_alter_eq, Hl by done.
  - by rewrite list_lookup_insert_ne, list_lookup_alter_ne by done.
Qed.

Lemma appended_0 vals a : appended 0 vals a a.
Proof. split; [done|]. intros i. by rewrite decide_False by lia. Qed.

Lemma appended_S k vals a a' :
  appended k vals a a' →
  appended (S k) vals a (alter (λ l, l ++ [vals !!! k]) k a').
Proof.
  intros [Hl Hi]. split; [by rewrite length_alter|]. intros i.
  destruct (decide (i = k)) as [->|Hne].
  - rewrite list_lookup_alter_eq, Hi.
    rewrite decide_False by lia. by rewrite decide_True by lia.
  - rewrite list_lookup_alter_ne, Hi by done.
    repeat case_decide; (done || lia).
Qed.

Lemma appended_one k vals a a' :
  appended k vals a a' → k < length a → k < length vals →
  ∃ x, vals !! k = Some x
     ∧ append_at k x a' = Some (alter (λ l, l ++ [vals !!! k]) k a').
Proof.
  intros [Hl _] Hk Hv. destruct (lookup_lt_is_Some_2 vals k Hv) as [x Hx].
  exists x. split; [done|].
  rewrite append_at_Some by lia. by rewrite (list_lookup_total_correct _ _ _ Hx).
Qed.

(** [recordStats] appends one entry to each record of every trajectory:
    the trajectory's temperature and acceptance rate, and the score, the
    energy and the variance of its proposal (row 0), whether or not the
    proposal was accepted.  The STUN value of the proposal is appended
    only while STUN is on.  The records must have been created for at
    least [nruns] trajectories ([initRecs]). *)
Theorem recordStats_appends (s : Sampler) (r : Recs) :
  nruns s ≤ length (temprec r) → nruns s ≤ length (accrec r) →
  nruns s ≤ length (scorerec r) → nruns s ≤ length (enrec r) →
  nruns s ≤ length (varrec r) → nruns s ≤ length (stunrec r) →
  nruns s ≤ length (temperature s) → nruns s ≤ length (acceptanceRate s) →
  nruns s ≤ length (scores s).1 → nruns s ≤ length (energy s).1 →
  nruns s ≤ length (variance s).1 →
  (STUN s ≠ 0%Z → ∃ f, F s = Some f ∧ nruns s ≤ length f.1) →
  ∃ r', recordStats s r = Some r'
      ∧ appended (nruns s) (temperature s) (temprec r) (temprec r')
      ∧ appended (nruns s) (acceptanceRate s) (accrec r) (accrec r')
      ∧ appended (nruns s) (scores s).1 (scorerec r) (scorerec r')
      ∧ appended (nruns s) (energy s).1 (enrec r) (enrec r')
      ∧ appended (nruns s) (variance s).1 (varrec r) (varrec r')
      ∧ (if decide (STUN s = 0%Z) then stunrec r' = stunrec r
         else ∃ f, F s = Some f ∧ appended (nruns s) f.1 (stunrec r) (stunrec r')).
Proof.
  intros L1 L2 L3 L4 L5 L6 V1 V2 V3 V4 V5 HF. unfold recordStats.
  pose (P := λ (k : nat) (o : option Recs),
    ∃ r', o = Some r'
      ∧ appended k (temperature s) (temprec r) (temprec r')
      ∧ appended k (acceptanceRate s) (accrec r) (accrec r')
      ∧ appended k (scores s).1 (scorerec r) (scorerec r')
      ∧ appended k (energy s).1 (enrec r) (enrec r')
      ∧ appended k (variance s).1 (varrec r) (varrec r')
      ∧ (if decide (STUN s = 0%Z) then stunrec r' = stunrec r
         else ∃ f, F s = Some f ∧ appended k f.1 (stunrec r) (stunrec r'))).
  assert (P (nruns s) (foldl (λ o i, r0 ← o; recordOne s i r0) (Some r)
                         (seq 0 (nruns s)))) as H; [|exact H].
  apply foldl_seq_ind.
  - exists r. split; [done|]. split_and!; try apply appended_0.
    case_decide; [done|]. destruct (HF ltac:(done)) as (f & Hf & _).
    exists f. split; [done|apply appended_0].
  - intros k o Hk (rk & -> & A1 & A2 & A3 & A4 & A5 & A6). unfold P. simpl.
    destruct (appended_one _ _ _ _ A1) as (x1 & X1 & B1); [lia|lia|].
    destruct (appended_one _ _ _ _ A2) as (x2 & X2 & B2); [lia|lia|].
    destruct (appended_one _ _ _ _ A3) as (x3 & X3 & B3); [lia|lia|].
    destruct (appended_one _ _ _ _ A4) as (x4 & X4 & B4); [lia|lia|].
    destruct (appended_one _ _ _ _ A5) as (x5 & X5 & B5); [lia|lia|].
    unfold recordOne. rewrite X1. simpl. rewrite B1. simpl.
    rewrite X2. simpl. rewrite B2. simpl.
    rewrite X3. simpl. rewrite B3. simpl.
    rewrite X4. simpl. rewrite B4. simpl.
    rewrite X5. simpl. rewrite B5. simpl.
    destruct (decide (STUN s = 0%Z)) as [E0|E0].
    + rewrite decide_False by (intros H; by apply H).
      eexists. split; [done|]. simpl.
      split_and!; try by apply appended_S. done.
    + rewrite decide_True by done.
      destruct A6 as (f & Hf & A6). destruct (HF E0) as (f' & Hf' & Lf).
      assert (f' = f) as -> by congruence.
      destruct (appended_one _ _ _ _ A6) as (x6 & X6 & B6); [lia|lia|].
      rewrite Hf. simpl. rewrite X6. simpl. rewrite B6. simpl.
      eexists. split; [done|]. simpl.
      split_and!; try by apply appended_S.
      exists f. split; [done|by apply appended_S].
Qed.

Lemma recordStats_appends_witness :
  is_Some (recordStats (iterate cm_fix model_first true start_two) (initRecs 2)).
Proof.
  destruct (recordStats_appends (iterate cm_fix model_first true start_two) (initRecs 2))
    as (r' & H & _).
  - simpl. lia.
  - simpl. lia.
  - simpl. lia.
  - simpl. lia.
  - simpl. lia.
  - simpl. lia.
  - simpl. lia.
  - simpl. lia.
  - simpl. lia.
  - simpl. lia.
  - simpl. lia.
  - intros _. eexists. split; [reflexivity|]. simpl. lia.
  - exists r'. exact H.
Defined.

(** ** Instances of the invariants of a run *)

(** In a run of [converge] on a new sampler there is one temperature for
    each trajectory and every temperature is positive, before and after
    every iteration, when the uniform draws of [updateAnnealing] lie in
    [0,1). *)
Theorem temperatures_stay_positive cm model useOracle rng scoreFunction0 gammas0
    (n : nat) :
  (∀ it i, 0 <= annealU rng it i < 1)%R →
  let s := runState cm model useOracle rng scoreFunction0 gammas0 n in
  let s' := midState cm model useOracle rng scoreFunction0 gammas0 n in
  length (temperature s) = length gammas0
  ∧ Forall (λ T, 0 < T)%R (temperature s)
  ∧ Forall (λ T, 0 < T)%R (temperature s').
Proof.
  intros HU s s'.
  destruct (temperature_positive_in_run cm model useOracle rng scoreFunction0 gammas0
              n HU) as [H1 H2].
  destruct (InvRun_runState cm model useOracle rng scoreFunction0 gammas0 n)
    as [(_ & _ & HT & _) _].
  done.
Qed.

Lemma temperatures_stay_positive_witness :
  Forall (λ T, 0 < T)%R
    (temperature (runState cm_fix model_first true rng_two (1%R, 0%R) [1%R; 1%R] 25)).
Proof.
  destruct (temperatures_stay_positive cm_fix model_first true rng_two (1%R, 0%R)
              [1%R; 1%R] 25) as (_ & H & _).
  - intros it i. simpl. lra.
  - exact H.
Defined.

Lemma recInds_increasing_in_run_witness :
  StronglySorted Z.lt
    (recIndsOf (midState cm_fix model_first true rng_two (1%R, 0%R) [1%R; 1%R] 12) 1).
Proof.
  destruct (recInds_increasing_in_run cm_fix model_first true rng_two (1%R, 0%R)
              [1%R; 1%R] 12 1) as [H _].
  - simpl. lia.
  - exact H.
Defined.

(** ** The recorded scores of a trajectory *)

Lemma E0_saveOptima c p sc en va it ind nb t :
  E0 (saveOptima c p sc en va it ind nb t)
  = if nb then <[ind := sc.1 !!! ind]> (E0 t) else E0 t.
Proof.
  unfold saveOptima. destruct nb; simpl.
  - rewrite orb_true_r. done.
  - rewrite orb_false_r. by destruct (negb _).
Qed.

Lemma decreasing_last_le (lo : list R) e :
  StronglySorted (λ x y, y < x)%R lo → last lo = Some e → Forall (λ a, e <= a)%R lo.
Proof.
  induction 1 as [|a l Hs IH Hall]; intros Hl; [constructor|].
  destruct l as [|b l'].
  - simpl in Hl. injection Hl as ->. constructor; [lra|constructor].
  - assert (last (b :: l') = Some e) as Hl' by exact Hl.
    specialize (IH Hl'). constructor; [|done].
    inversion IH; subst. inversion Hall; subst. lra.
Qed.

Section ImprovingStep.
Context (al : list (list R)) (ind : nat) (ratio : list npfloat) (prop : list row).
Context (sc en va : tworows) (it : Z) (n : nat).

Lemma acceptOne_improving j c t :
  length c = n → TrInv n t → j < n → improving j t →
  improving j (acceptOne al ind ratio prop sc en va it j (c, t)).2.
Proof.
  intros Hc Ht Hj Himp. unfold acceptOne.
  destruct (np_lt_l _ _); [|done].
  set (c' := <[j := prop !!! j]> c). set (t' := recordAcceptance it j t).
  assert (TrInv n t') as Ht' by by apply TrInv_recordAcceptance.
  assert (c' !! j = Some (prop !!! j)) as Hrow.
  { subst c'. apply list_lookup_insert_eq. lia. }
  assert (improving j t') as (lo & e & Ho & He & Hlast & Hs) by done.
  destruct (bool_decide (sc.1 !!! j < E0 t' !!! j)%R) eqn:Hb; cbn [snd].
  - destruct (saveOptima_lists prop sc en va it n c' j true t' Ht' Hj Hrow)
      as (Hopt & _ & _).
    apply bool_decide_eq_true_1 in Hb.
    rewrite (list_lookup_total_correct _ _ _ He) in Hb.
    exists (lo ++ [sc.1 !!! j]), (sc.1 !!! j).
    rewrite Hopt, E0_saveOptima, list_lookup_alter_eq, Ho.
    split; [done|]. split.
    { apply list_lookup_insert_eq. by eapply lookup_lt_Some. }
    split; [by rewrite last_snoc|].
    apply StronglySorted_app_2; [|done|repeat constructor].
    intros a y Ha Hy. apply list_elem_of_singleton in Hy as ->.
    pose proof (decreasing_last_le lo e Hs Hlast) as Hall.
    pose proof (proj1 (Forall_forall _ _) Hall a Ha) as Hle. simpl in Hle. lra.
  - destruct (nearOldBest _ _); cbn [snd]; [|by exists lo, e].
    destruct (saveOptima_lists prop sc en va it n c' j false t' Ht' Hj Hrow)
      as (Hopt & _ & _).
    exists lo, e. by rewrite Hopt, E0_saveOptima.
Qed.

Lemma updateConfigs_improving c t :
  length c = n → TrInv n t → (∀ i, i < n → improving i t) →
  ∀ i, i < n → improving i (updateConfigs al ind ratio prop sc en va it n (c, t)).2.
Proof.
  intros Hc Ht Himp. unfold updateConfigs.
  pose (P := λ (k : nat) (st : list row * Tracker),
    length st.1 = n ∧ TrInv n st.2 ∧ ∀ i, i < n → improving i st.2).
  assert (P n (foldl (λ st i, acceptOne al ind ratio prop sc en va it i st)
                 (c, t) (seq 0 n))) as (_ & _ & H); [|done].
  apply foldl_seq_ind; [done|].
  intros k [ck tk] Hk (Hck & Htk & Hall). cbn [fst snd] in *.
  destruct (acceptOne_step al ind ratio prop sc en va it n k ck tk Hck Htk Hk)
    as (Ha & Hb & _).
  split; [done|]. split; [done|]. intros i Hi.
  destruct (decide (i = k)) as [->|Hne].
  - apply acceptOne_improving; auto.
  - assert (trajState i (acceptOne al ind ratio prop sc en va it k (ck, tk))
            = trajState i (ck, tk)) as Htr.
    { apply trajState_acceptOne. congruence. }
    set (st' := acceptOne al ind ratio prop sc en va it k (ck, tk)) in *.
    unfold trajState in Htr. cbn [fst snd] in Htr.
    destruct (Hall i Hi) as (lo & e & Ho & He & Hl & Hs).
    exists lo, e.
    assert (optima st'.2 !! i = optima tk !! i) as -> by congruence.
    assert (E0 st'.2 !! i = E0 tk !! i) as -> by congruence.
    done.
Qed.
End ImprovingStep.

Lemma improving_in_run cm model useOracle rng scoreFunction0 gammas0 (n : nat) :
  (∀ p c, length (getScores scoreFunction0 model useOracle p c).1.1.2 = length c) →
  ∃ t, tracker (midState cm model useOracle rng scoreFunction0 gammas0 n) = Some t
       ∧ ∀ i, i < length gammas0 → improving i t.
Proof.
  intros Hlen.
  assert (∀ s, InvRun gammas0 s →
            (∀ i, i < length gammas0 → improving i (trackerOf cm model useOracle s)) →
            ∀ i, i < length gammas0 →
              improving i (acceptStep cm model useOracle s).2) as Hstep.
  { intros s Hs Himp i Hi.
    pose proof (TrInv_trackerOf cm model useOracle gammas0 s Hs) as Ht.
    destruct Hs as (Hn & Hc & _).
    unfold acceptStep. apply updateConfigs_improving; rewrite ?Hn; done. }
  induction n as [|n (t & Ht & Himp)].
  - eexists. split; [reflexivity|]. apply Hstep.
    { apply InvRun_set_iter, InvRun_runStart. }
    intros i Hi.
    set (s0 := set_iter (Z.of_nat 0) (runState cm model useOracle rng scoreFunction0 gammas0 0)).
    set (sc := (scoresOf cm model useOracle s0).1.1.2).
    assert (length sc = length gammas0) as Hsc.
    { subst sc. unfold scoresOf.
      change (scoreFunction s0) with scoreFunction0. rewrite Hlen.
      subst s0. simpl. unfold getInitConfig. by rewrite length_fmap, length_seq. }
    exists [sc !!! i], (sc !!! i).
    assert (trackerOf cm model useOracle s0
            = initOptima (length gammas0) (scoresOf cm model useOracle s0).1.1
                (scoresOf cm model useOracle s0).1.2 (scoresOf cm model useOracle s0).2)
      as -> by done.
    cbn [optima E0 initOptima]. fold sc.
    rewrite list_lookup_fmap, lookup_seq_lt by done.
    split; [done|]. split; [apply list_lookup_lookup_total_lt; lia|].
    split; [done|]. repeat constructor.
  - eexists. split; [reflexivity|]. apply Hstep.
    { apply InvRun_set_iter, InvRun_runState. }
    unfold trackerOf. simpl tracker. by rewrite tracker_runState_S, Ht.
Qed.

(** In a run of [converge] on a new sampler, with a model that returns
    one score for each sequence, the scores recorded for a trajectory are
    strictly decreasing and the last of them is the trajectory's best
    score [E0[i]]. *)
Theorem recorded_scores_improve cm model useOracle rng scoreFunction0 gammas0
    (n i : nat) :
  (∀ p c, length (getScores scoreFunction0 model useOracle p c).1.1.2 = length c) →
  i < length gammas0 →
  ∃ t e, tracker (midState cm model useOracle rng scoreFunction0 gammas0 n) = Some t
       ∧ E0 t !! i = Some e
       ∧ last (optimaOf (midState cm model useOracle rng scoreFunction0 gammas0 n) i)
         = Some e
       ∧ StronglySorted (λ x y, y < x)%R
           (optimaOf (midState cm model useOracle rng scoreFunction0 gammas0 n) i).
Proof.
  intros Hlen Hi.
  destruct (improving_in_run cm model useOracle rng scoreFunction0 gammas0 n Hlen)
    as (t & Ht & Himp).
  destruct (Himp i Hi) as (lo & e & Ho & He & Hl & Hs).
  exists t, e. unfold optimaOf. rewrite Ht. simpl. rewrite Ho. simpl. done.
Qed.

Lemma recorded_scores_improve_witness :
  ∃ t e, tracker (midState cm_fix model_first true rng_two (1%R, 0%R) [1%R; 1%R] 3)
         = Some t
       ∧ E0 t !! 0 = Some e.
Proof.
  destruct (recorded_scores_improve cm_fix model_first true rng_two (1%R, 0%R)
              [1%R; 1%R] 3 0) as (t & e & H1 & H2 & _).
  - intros p c. unfold getScores. cbn [fst snd]. rewrite weighted_zero.
    rewrite length_fmap. simpl. by rewrite length_map.
  - simpl. lia.
  - exists t, e. split; [exact H1|exact H2].
Defined.

(** ** The test for copies *)

Lemma count_equal_le (p : row) : ∀ e, count_equal p e ≤ length p.
Proof.
  induction p as [|a p IH]; intros [|b e]; unfold count_equal; simpl; try lia.
  rewrite filter_cons. specialize (IH e). unfold count_equal in IH.
  case_decide; simpl; lia.
Qed.

Lemma count_equal_full (p : row) :
  ∀ e, length e = length p → count_equal p e = length p → p = e.
Proof.
  induction p as [|a p IH]; intros [|b e] Hl Hc; try done.
  unfold count_equal in Hc. simpl in Hc. rewrite filter_cons in Hc.
  destruct (decide (bool_decide (a = b) = true)) as [Hab|Hab]; simpl in Hc.
  - apply bool_decide_eq_true_1 in Hab. subst. f_equal.
    apply IH; [simpl in Hl; lia|]. unfold count_equal. lia.
  - pose proof (count_equal_le p e) as Hle. unfold count_equal in Hle. lia.
Qed.

(** The test of [saveOptima] for copies is exact on a pool of sequences
    of the proposal's length: it succeeds if and only if the pool holds a
    sequence that agrees with the proposal in every position. *)
Theorem has_copy_exact (c : list row) (pool : list rowref) (p : row) :
  Forall (λ e, length (deref c e) = length p) pool →
  has_copy c pool p = true ↔ ∃ e, e ∈ pool ∧ deref c e = p.
Proof.
  intros Hlen. split.
  - unfold has_copy. intros H. apply existsb_exists in H as (k & Hk & Hc).
    apply in_map_iff in Hk as (e & <- & He). apply list_elem_of_In in He.
    exists e. split; [done|].
    apply bool_decide_eq_true_1 in Hc.
    pose proof (proj1 (Forall_forall _ _) Hlen e He) as Hl. simpl in Hl.
    symmetry. by apply count_equal_full.
  - intros (e & He & Hd). by apply (has_copy_elem _ _ _ e).
Qed.

Lemma has_copy_exact_witness :
  has_copy [[1; 2]%Z] [RowOf 0] [1; 2]%Z = true
  ↔ ∃ e, e ∈ [RowOf 0] ∧ deref [[1; 2]%Z] e = [1; 2]%Z.
Proof.
  apply (has_copy_exact [[1; 2]%Z] [RowOf 0] [1; 2]%Z).
  apply Forall_singleton. reflexivity.
Defined.

(** ** Sequences do not get shorter *)

Lemma count_nonzero_insert (r : row) x :
  x ≠ 0%Z →
  ∀ k, (count_nonzero r ≤ count_nonzero (<[k := x]> r) ≤ count_nonzero r + 1)%Z.
Proof.
  intros Hx. unfold count_nonzero. induction r as [|a r IH]; intros [|k]; simpl;
    rewrite ?filter_cons; try lia.
  - repeat case_decide; simpl; lia.
  - specialize (IH k). repeat case_decide; simpl; lia.
Qed.

Lemma propRow_count cm b ind i (r : row) :
  get2 0%Z (spinRandints b) i ind ≠ 0%Z →
  get2 0%Z (seqExtensionRandints b) i ind ≠ 0%Z →
  (count_nonzero r ≤ count_nonzero (propRow cm b ind i r) ≤ count_nonzero r + 2)%Z.
Proof.
  intros Hs He. unfold propRow.
  pose proof (count_nonzero_insert r _ Hs (get2 0 (pickSpinRandint b) i ind)) as H1.
  set (r1 := <[get2 0 (pickSpinRandint b) i ind := get2 0%Z (spinRandints b) i ind]> r)
    in *.
  pose proof (count_nonzero_insert r1 _ He (Z.to_nat (count_nonzero r1))) as H2.
  destruct (variable_length cm); [|lia].
  repeat case_decide; try lia.
  unfold count_nonzero in *. lia.
Qed.

(** An iteration never removes a symbol from a sequence: every symbol it
    writes is nonzero, and the branch that would shorten the sequence is
    never taken.  The number of nonzero symbols of a trajectory grows by
    at most two in one iteration and does not decrease. *)
Theorem step_never_shortens cm model useOracle (s : Sampler) (i : nat) (r : row) :
  i < nruns s →
  length (config s) = nruns s →
  config s !! i = Some r →
  get2 0%Z (spinRandints (buf s)) i (indOf s) ≠ 0%Z →
  get2 0%Z (seqExtensionRandints (buf s)) i (indOf s) ≠ 0%Z →
  ∃ r', config (iterate cm model useOracle s) !! i = Some r'
      ∧ (count_nonzero r ≤ count_nonzero r' ≤ count_nonzero r + 2)%Z.
Proof.
  intros Hi Hc Hr Hs He.
  change (config (iterate cm model useOracle s)) with (acceptStep cm model useOracle s).1.
  unfold acceptStep. rewrite updateConfigs_row by done. cbn [fst].
  destruct (accepted _ _ _ _).
  - rewrite list_lookup_insert_eq by lia.
    assert (proposalOf cm s !! i = Some (propRow cm (buf s) (indOf s) i r)) as Hp.
    { unfold proposalOf. by rewrite lookup_propConfigs, Hr. }
    rewrite (list_lookup_total_correct _ _ _ Hp).
    eexists. split; [done|]. by apply propRow_count.
  - exists r. split; [done|lia].
Qed.

Lemma step_never_shortens_witness :
  ∃ r', config (iterate cm_var model_first true start_var) !! 0 = Some r'
      ∧ (count_nonzero [1; 2; 0; 0]%Z ≤ count_nonzero r')%Z.
Proof.
  destruct (step_never_shortens cm_var model_first true start_var 0 [1; 2; 0; 0]%Z)
    as (r' & H1 & H2 & _).
  - simpl. lia.
  - reflexivity.
  - reflexivity.
  - vm_compute. lia.
  - vm_compute. lia.
  - exists r'. split; [exact H1|exact H2].
Defined.

(** * The energy difference in a run *)









